(** * pykin RRT* planner: a shallow embedding of
      [pykin/planners/rrt_star_planner.py] and its tree invariants.

    Joint values, distances and costs are Python floats in the source; they
    are modelled as real numbers ([R]), so every arithmetic statement below
    is about exact real arithmetic.  A Python exception is modelled by
    [None] in the option monad (or by an explicit [exn] in the setup code),
    the random source by the sequence of values [random_state] returns, and
    the collision oracle by a boolean function of the configuration. *)

From Stdlib Require Import Reals Lra Lia List String Ascii Bool ZArith.
From stdpp Require Import base option list gmap.
Import ListNotations.

(** ** Floats as reals: comparisons and powers *)

Definition Rltb (x y : R) : bool := if Rlt_dec x y then true else false.
Definition Rleb (x y : R) : bool := if Rle_dec x y then true else false.
Definition Reqb (x y : R) : bool := if Req_dec_T x y then true else false.

(** [x ** y] on floats, for the only calls the planner makes: a base
    [x >= 0] and an exponent [y > 0] ([0.0 ** y] is [0.0]). *)
Definition float_pow (x y : R) : R :=
  if Req_dec_T x 0 then 0%R else Rpower x y.

(** ** Configurations (1-d numpy arrays) *)

Abbreviation Config := (list R).

(** [pointB - pointA], element by element.  numpy raises ValueError (or
    broadcasts an array of length 1) when the two arrays differ in length;
    [zip_with] stops at the end of the shorter one.  The vector operations
    below are therefore those of the code on configurations of one length,
    and a statement that a function returns carries that as hypotheses. *)
Definition vec_sub (a b : Config) : Config := zip_with Rminus a b.

(** [np.linalg.norm] of a 1-d array: the root of the sum of squares. *)
Fixpoint sum_sq (v : list R) : R :=
  match v with
  | [] => 0%R
  | x :: v' => (x * x + sum_sq v')%R
  end.

Definition norm (v : Config) : R := sqrt (sum_sq v).

Definition distance (pointA pointB : Config) : R :=
  norm (vec_sub pointB pointA).

(** [np.equal(a, b).all()] *)
Definition np_equal_all (a b : Config) : bool :=
  forallb (fun e : bool => e) (zip_with Reqb a b).

(** ** Python list indexing, negative indices included *)

Definition py_index (len : nat) (i : Z) : option nat :=
  if decide (0 <= i < Z.of_nat len)%Z then Some (Z.to_nat i)
  else if decide (- Z.of_nat len <= i < 0)%Z then Some (Z.to_nat (Z.of_nat len + i))
  else None.

(** [np.argmin]: index of the first minimum; an empty sequence raises. *)
Fixpoint argmin_from (best_i : nat) (best : R) (i : nat) (ds : list R) : nat :=
  match ds with
  | [] => best_i
  | d :: ds' =>
      if Rltb d best then argmin_from i d (S i) ds'
      else argmin_from best_i best (S i) ds'
  end.

Definition argmin (ds : list R) : option nat :=
  match ds with
  | [] => None
  | d :: ds' => Some (argmin_from 0 d 1 ds')
  end.

(** ** The tree *)

(** Modelled from the spec: [pykin.planners.tree.Tree] is not among the
    sources.  It holds the two growable sequences [vertices] and [edges];
    [add_vertex] and [add_edge] append.  An edge is the two-element list
    [[parent_index, child_index]]. *)
Record Tree := mkTree {
  vertices : list Config;
  edges : list (nat * nat)
}.

Definition empty_tree : Tree := mkTree [] [].

Definition add_vertex (q : Config) (t : Tree) : Tree :=
  mkTree (vertices t ++ [q]) (edges t).

Definition add_edge (e : nat * nat) (t : Tree) : Tree :=
  mkTree (vertices t) (edges t ++ [e]).

(** [t.edges[k][0] = p] *)
Definition set_edge_parent (k p : nat) (t : Tree) : Tree :=
  mkTree (vertices t) (alter (fun e => (p, e.2)) k (edges t)).

(** The parent of vertex [v]: the first component of the edge whose child
    is [v], if there is one. *)
Definition parent (t : Tree) (v : nat) : option nat :=
  fst <$> List.find (fun e => Nat.eqb e.2 v) (edges t).

(** [root_chain t v l]: following parent links from [v] reaches vertex 0;
    [l] lists the vertices passed on the way, [v] first and vertex 0 left
    out, so [length l] is the number of links followed. *)
Inductive root_chain (t : Tree) : nat -> list nat -> Prop :=
  | root_chain_root : root_chain t 0 []
  | root_chain_step v p l :
      v <> 0 -> parent t v = Some p -> root_chain t p l ->
      root_chain t v (v :: l).

(** The tree is a rooted tree: one edge per vertex but the first, no parent
    for vertex 0, and every vertex linked to vertex 0 by at most
    [|vertices|] parent links. *)
Definition valid_tree (t : Tree) : Prop :=
  length (edges t) + 1 = length (vertices t) /\
  parent t 0 = None /\
  forall v, v < length (vertices t) ->
    exists l, root_chain t v l /\ length l <= length (vertices t).

(** ** Setup: [setup_start_goal_joint] *)

(** The values the caller may pass for [current_q] and [goal_q], and
    [np.array(None)], which the conversion of a missing value yields. *)
Inductive pyval :=
  | PyNone
  | PyList (xs : list R)
  | NdArray (xs : list R)
  | NdArrayOfNone.

Inductive exn :=
  | NotFoundError
  | CollisionError (names : string * string)
  | AttributeError
  | TypeError.

Definition isinstance_ndarray (v : pyval) : bool :=
  match v with
  | NdArray _ | NdArrayOfNone => true
  | _ => false
  end.

Definition np_array (v : pyval) : pyval :=
  match v with
  | PyNone => NdArrayOfNone
  | PyList xs => NdArray xs
  | other => other
  end.

(** Truth value of [v.all()]: every element non-zero for a float array,
    falsy for [np.array(None)]; a list or [None] has no such attribute. *)
Definition py_all (v : pyval) : exn + bool :=
  match v with
  | NdArray xs => inr (forallb (fun x => negb (Reqb x 0)) xs)
  | NdArrayOfNone => inr false
  | PyList _ | PyNone => inl AttributeError
  end.

(** [goal_q.all() is None]: a numpy boolean is never [None]; the reduction
    of the object array [np.array(None)] yields its element. *)
Definition all_is_None (v : pyval) : exn + bool :=
  match v with
  | NdArray _ => inr false
  | NdArrayOfNone => inr true
  | PyList _ | PyNone => inl AttributeError
  end.

(** [if current_q.all() or goal_q.all() is None: raise NotFoundError];
    [or] evaluates its right operand only when the left one is falsy. *)
Definition _check_q_data (current_q goal_q : pyval) : exn + bool :=
  match py_all current_q with
  | inl e => inl e
  | inr true => inl NotFoundError
  | inr false =>
      match all_is_None goal_q with
      | inl e => inl e
      | inr true => inl NotFoundError
      | inr false => inr true
      end
  end.

Definition py_len (v : pyval) : exn + nat :=
  match v with
  | NdArray xs | PyList xs => inr (length xs)
  | _ => inl TypeError
  end.

(** The caller supplied the configuration [xs], as a plain sequence or as
    an array. *)
Definition supplied (v : pyval) (xs : Config) : Prop :=
  v = PyList xs \/ v = NdArray xs.

(** ["obstacle" in name] *)
Fixpoint contains (sub s : string) : bool :=
  String.prefix sub s ||
  match s with
  | EmptyString => false
  | String _ s' => contains sub s'
  end.

(** [_check_init_collision] on the oracle's report
    [(is_collision, obj_names)]: the first pair that is not
    obstacle-obstacle is raised. *)
Fixpoint first_offending (obj_names : list (string * string)) : option (string * string) :=
  match obj_names with
  | [] => None
  | (name1, name2) :: rest =>
      if negb (contains "obstacle" name1 && contains "obstacle" name2)
      then Some (name1, name2)
      else first_offending rest
  end.

(** Both names of a colliding pair are obstacles. *)
Definition obstacle_pair (p : string * string) : bool :=
  contains "obstacle" p.1 && contains "obstacle" p.2.

Definition _check_init_collision (report : bool * list (string * string)) : option exn :=
  if report.1 then CollisionError <$> first_offending report.2 else None.

(** The attributes of the planner object that setup and planning touch.
    [o_T] and [o_cost] are [None] until [generate_path] runs. *)
Record PlannerObj := mkObj {
  o_cur_q : pyval;
  o_goal_q : pyval;
  o_delta_dis : R;
  o_epsilon : R;
  o_max_iter : nat;
  o_gamma_RRTs : R;
  o_arm : option string;
  o_dimension : nat;
  o_q_limits : option (Config * Config);
  o_T : option Tree;
  o_cost : option (gmap nat R)
}.

Definition set_cur_goal (current_q goal_q : pyval) (o : PlannerObj) : PlannerObj :=
  mkObj current_q goal_q (o_delta_dis o) (o_epsilon o) (o_max_iter o)
        (o_gamma_RRTs o) (o_arm o) (o_dimension o) (o_q_limits o) (o_T o) (o_cost o).

Definition set_arm (arm : option string) (o : PlannerObj) : PlannerObj :=
  mkObj (o_cur_q o) (o_goal_q o) (o_delta_dis o) (o_epsilon o) (o_max_iter o)
        (o_gamma_RRTs o) arm (o_dimension o) (o_q_limits o) (o_T o) (o_cost o).

Definition set_dimension (n : nat) (o : PlannerObj) : PlannerObj :=
  mkObj (o_cur_q o) (o_goal_q o) (o_delta_dis o) (o_epsilon o) (o_max_iter o)
        (o_gamma_RRTs o) (o_arm o) n (o_q_limits o) (o_T o) (o_cost o).

Definition set_q_limits (lims : Config * Config) (o : PlannerObj) : PlannerObj :=
  mkObj (o_cur_q o) (o_goal_q o) (o_delta_dis o) (o_epsilon o) (o_max_iter o)
        (o_gamma_RRTs o) (o_arm o) (o_dimension o) (Some lims) (o_T o) (o_cost o).

Section Setup.

(** The robot's joint limits, per arm or global, and the report of
    [fcl_manager.collision_check(return_names=True)] once the robot links
    and the obstacles are registered. *)
Variable robot_joint_limits : option string -> Config * Config.
Variable init_report : bool * list (string * string).

(** [_setup_collision_and_q_limit]: the collision check comes first, the
    limits are set only when it does not raise. *)
Definition _setup_collision_and_q_limit (self : PlannerObj) : PlannerObj * option exn :=
  match _check_init_collision init_report with
  | Some e => (self, Some e)
  | None => (set_q_limits (robot_joint_limits (o_arm self)) self, None)
  end.

Definition setup_start_goal_joint (self : PlannerObj)
    (current_q goal_q : pyval) (arm : option string) : PlannerObj * option exn :=
  let current_q :=
    if isinstance_ndarray current_q then current_q else np_array current_q in
  (* the second conversion assigns to [current_q] as well *)
  let current_q :=
    if isinstance_ndarray goal_q then current_q else np_array goal_q in
  match _check_q_data current_q goal_q with
  | inl e => (self, Some e)
  | inr ok =>
      let self := if ok then set_cur_goal current_q goal_q self else self in
      let self := set_arm arm self in
      match py_len current_q with
      | inl e => (self, Some e)
      | inr n => _setup_collision_and_q_limit (set_dimension n self)
      end
  end.

End Setup.

(** ** Planning: [generate_path] and its helpers *)

(** The planner as [generate_path] needs it: start and goal are arrays and
    the limits are set. *)
Record Planner := mkPlanner {
  cur_q : Config;
  goal_q : Config;
  delta_dis : R;
  epsilon : R;
  max_iter : nat;
  gamma_RRTs : R;
  dimension : nat;
  q_limits_lower : Config;
  q_limits_upper : Config
}.

Definition as_planner (o : PlannerObj) : option Planner :=
  match o_cur_q o, o_goal_q o, o_q_limits o with
  | NdArray s, NdArray g, Some (lo, up) =>
      Some (mkPlanner s g (o_delta_dis o) (o_epsilon o) (o_max_iter o)
                      (o_gamma_RRTs o) (o_dimension o) lo up)
  | _, _, _ => None
  end.

(** [self.T] and [self.cost] while [generate_path] runs. *)
Record PState := mkState {
  T : Tree;
  cost : gmap nat R
}.

(** What the planner maintains between the statements of [generate_path]:
    edge [k] is the parent link of vertex [k+1], the cost map is defined on
    the vertices, a vertex costs at least its parent's cost plus the length
    of the link, and every vertex is linked to vertex 0. *)
Record planner_inv (s : PState) : Prop := mkInv {
  inv_len : length (edges (T s)) + 1 = length (vertices (T s));
  inv_edges : forall k e, edges (T s) !! k = Some e ->
    e.2 = S k /\ e.1 < length (vertices (T s));
  inv_dom : forall v, is_Some (cost s !! v) <-> v < length (vertices (T s));
  inv_cost : forall k e, edges (T s) !! k = Some e ->
    exists cp cv qp qv,
      cost s !! e.1 = Some cp /\ cost s !! S k = Some cv /\
      vertices (T s) !! e.1 = Some qp /\ vertices (T s) !! S k = Some qv /\
      (cp + distance qp qv <= cv)%R;
  inv_reach : forall v, v < length (vertices (T s)) ->
    exists l, root_chain (T s) v l
}.

(** The recorded costs of [s'] are defined wherever those of [s] are and
    are no larger. *)
Definition cost_le (s s' : PState) : Prop :=
  forall v c, cost s !! v = Some c ->
    exists c', cost s' !! v = Some c' /\ (c' <= c)%R.

(** Every vertex costs exactly its parent's cost plus the length of the
    link between them. *)
Definition cost_consistent (s : PState) : Prop :=
  forall v p cv cp qv qp,
    parent (T s) v = Some p ->
    cost s !! v = Some cv -> cost s !! p = Some cp ->
    vertices (T s) !! v = Some qv -> vertices (T s) !! p = Some qp ->
    cv = (cp + distance qp qv)%R.

(** Every vertex costs at least its parent's cost plus the length of the
    link between them. *)
Definition cost_bounds_links (s : PState) : Prop :=
  forall v p, parent (T s) v = Some p ->
    exists cv cp qv qp,
      cost s !! v = Some cv /\ cost s !! p = Some cp /\
      vertices (T s) !! v = Some qv /\ vertices (T s) !! p = Some qp /\
      (cp + distance qp qv <= cv)%R.

(** The length of the path from vertex 0 along the chain [l] (as in
    [root_chain]: deepest vertex first, vertex 0 left out). *)
Fixpoint chain_length (t : Tree) (l : list nat) : R :=
  match l with
  | [] => 0%R
  | v :: l' =>
      (distance (default [] (vertices t !! hd 0%nat l')) (default [] (vertices t !! v))
       + chain_length t l')%R
  end.

Section Planning.

Variable self : Planner.

(** [collision_free q] moves every robot link to its pose at [q] and asks
    the collision oracle; its answer is a function of [q]. *)
Variable collision_free : Config -> bool.

(** [random_state k] is the sample drawn in iteration [k]. *)
Variable random_state : nat -> Config.

(** [np.all([q_in >= lower, q_in <= upper])], for [q_in] and limit vectors
    of one length (numpy raises or broadcasts otherwise). *)
Definition _q_in_limits (q_in : Config) : bool :=
  forallb (fun e : bool => e) (zip_with Rleb (q_limits_lower self) q_in) &&
  forallb (fun e : bool => e) (zip_with Rleb q_in (q_limits_upper self)).

Definition nearest_neighbor (random_q : Config) (tree : Tree) : option (Config * nat) :=
  let distances := map (fun vertex => distance random_q vertex) (vertices tree) in
  nearest_idx ← argmin distances;
  nearest_point ← vertices tree !! nearest_idx;
  Some (nearest_point, nearest_idx).

Definition new_state (nearest_q random_q : Config) : Config :=
  if np_equal_all nearest_q random_q then nearest_q
  else
    let vector := vec_sub random_q nearest_q in
    let dist := distance random_q nearest_q in
    let step := Rmin (delta_dis self) dist in
    let unit_vector := map (fun x => (x / dist)%R) vector in
    zip_with Rplus nearest_q (map (fun u => (u * step)%R) unit_vector).

(** [min(r, self.delta_dis)] for a tree of [n] vertices. *)
Definition search_radius (n : nat) : R :=
  let card_V := INR (n + 1) in
  let r := (gamma_RRTs self *
            float_pow (ln card_V / card_V) (1 / INR (dimension self)))%R in
  Rmin r (delta_dis self).

(** The [enumerate] loop of [find_near_neighbor], from index [idx] on. *)
Fixpoint near_indexes_from (idx : nat) (radius : R) (q : Config)
    (dist_list : list R) : list nat :=
  match dist_list with
  | [] => []
  | dist :: rest =>
      if Rleb dist radius && collision_free q
      then idx :: near_indexes_from (S idx) radius q rest
      else near_indexes_from (S idx) radius q rest
  end.

(** [1/self.dimension] raises ZeroDivisionError for dimension 0. *)
Definition find_near_neighbor (s : PState) (q : Config) : option (list nat) :=
  if decide (dimension self = 0) then None
  else
    let dist_list := map (fun vertex => distance vertex q) (vertices (T s)) in
    Some (near_indexes_from 0 (search_radius (length (vertices (T s)))) q dist_list).

Definition get_new_cost (s : PState) (idx : nat) (A B : Config) : option R :=
  c ← cost s !! idx;
  Some (c + distance A B)%R.

Fixpoint get_minimum_cost (s : PState) (neighbor_indexes : list nat)
    (new_q : Config) (min_cost : R) (nearest_idx : nat) : option (R * nat) :=
  match neighbor_indexes with
  | [] => Some (min_cost, nearest_idx)
  | i :: rest =>
      v ← vertices (T s) !! i;
      new_cost ← get_new_cost s i new_q v;
      if Rltb new_cost min_cost && collision_free new_q
      then get_minimum_cost s rest new_q new_cost i
      else get_minimum_cost s rest new_q min_cost nearest_idx
  end.

(** One pass of the loop body of [rewire] for neighbour [i]. *)
Definition rewire_one (s : PState) (i : nat) (new_q : Config) (new_idx : nat) : option PState :=
  v ← vertices (T s) !! i;
  let no_collision := collision_free v in
  new_cost ← get_new_cost s new_idx new_q v;
  if no_collision then
    ci ← cost s !! i;
    if Rltb new_cost ci then
      k ← py_index (length (edges (T s))) (Z.of_nat i - 1);
      Some (mkState (set_edge_parent k new_idx (T s)) (<[i := new_cost]> (cost s)))
    else Some s
  else Some s.

Fixpoint rewire (s : PState) (neighbor_indexes : list nat) (new_q : Config)
    (new_idx : nat) : option PState :=
  match neighbor_indexes with
  | [] => Some s
  | i :: rest =>
      s' ← rewire_one s i new_q new_idx;
      rewire s' rest new_q new_idx
  end.

Definition reach_to_goal (point : Config) : bool :=
  Rleb (distance point (goal_q self)) (2 / 10).

(** The [while goal_idx != 0] loop of [find_path]; [fuel] bounds the number
    of passes, [None] is an exception or exhausted fuel. *)
Fixpoint backtrack (fuel : nat) (tree : Tree) (goal_idx : nat)
    (path : list Config) : option (list Config) :=
  if decide (goal_idx = 0) then Some path
  else
    match fuel with
    | 0 => None
    | S fuel' =>
        v ← vertices tree !! goal_idx;
        k ← py_index (length (edges tree)) (Z.of_nat goal_idx - 1);
        e ← edges tree !! k;
        backtrack fuel' tree e.1 (path ++ [v])
    end.

Definition find_path_fuel (fuel : nat) (tree : Tree) : option (list Config) :=
  k ← py_index (length (edges tree)) (-1);
  e ← edges tree !! k;
  path ← backtrack fuel tree e.2 [goal_q self];
  Some (rev (path ++ [cur_q self])).

(** [find_path], its loop given as many passes as the tree has vertices. *)
Definition find_path (tree : Tree) : option (list Config) :=
  find_path_fuel (length (vertices tree)) tree.

(** [add_vertex], [self.cost[new_idx] = min_cost] and [add_edge]. *)
Definition insert_vertex (s : PState) (new_q : Config) (min_cost : R)
    (nearest_idx : nat) : PState * nat :=
  let t1 := add_vertex new_q (T s) in
  let new_idx := length (vertices t1) - 1 in
  let cost1 := <[new_idx := min_cost]> (cost s) in
  (mkState (add_edge (nearest_idx, new_idx) t1) cost1, new_idx).

(** The choice of the parent, lines 113 to 115 of the source. *)
Definition choose_parent (s : PState) (nearest_q : Config) (nearest_idx : nat)
    (new_q : Config) : option (list nat * R * nat) :=
  neighbor_indexes ← find_near_neighbor s new_q;
  min_cost ← get_new_cost s nearest_idx nearest_q new_q;
  '(min_cost, nearest_idx) ←
    get_minimum_cost s neighbor_indexes new_q min_cost nearest_idx;
  Some (neighbor_indexes, min_cost, nearest_idx).

(** The part of the loop body guarded by the collision and limit checks,
    up to the end of [rewire]. *)
Definition extend (s : PState) (nearest_q : Config) (nearest_idx : nat)
    (new_q : Config) : option PState :=
  '(neighbor_indexes, min_cost, nearest_idx) ←
    choose_parent s nearest_q nearest_idx new_q;
  let '(s1, new_idx) := insert_vertex s new_q min_cost nearest_idx in
  rewire s1 neighbor_indexes new_q new_idx.

(** The body of the [for k in range(self.max_iter)] loop; the state is the
    tree, the cost map and the local [path]. *)
Definition iteration (k : nat) (sp : PState * option (list Config))
    : option (PState * option (list Config)) :=
  let '(s, path) := sp in
  let rand_q := random_state k in
  '(nearest_q, nearest_idx) ← nearest_neighbor rand_q (T s);
  let new_q := new_state nearest_q rand_q in
  if collision_free new_q && _q_in_limits new_q then
    s' ← extend s nearest_q nearest_idx new_q;
    if reach_to_goal new_q then
      p ← find_path (T s');
      Some (s', Some p)
    else Some (s', path)
  else Some (s, path).

Definition init_state : PState * option (list Config) :=
  (mkState (add_vertex (cur_q self) empty_tree) {[ 0 := 0%R ]}, None).

(** The state after the first [n] iterations. *)
Fixpoint loop (n : nat) : option (PState * option (list Config)) :=
  match n with
  | 0 => Some init_state
  | S k => sp ← loop k; iteration k sp
  end.

(** [generate_path]: the returned [path] together with the tree and cost
    map it leaves in the planner. *)
Definition generate_path : option (PState * option (list Config)) :=
  loop (max_iter self).

(** [p] is the path [find_path] extracts from the tree of [s]: the start
    configuration, then the vertices on the chain of the last vertex from
    the root down, then the goal configuration. *)
Definition extracted (s : PState) (p : list Config) : Prop :=
  exists l qs,
    root_chain (T s) (length (edges (T s))) l /\
    Forall2 (fun x q => vertices (T s) !! x = Some q) l qs /\
    p = cur_q self :: rev qs ++ [goal_q self].

(** The states of tree and cost map that [generate_path] goes through: the
    one at the start of every iteration (and at the end of the last), and,
    inside an iteration that accepts its candidate, the one after the
    insertion and after every pass of the loop of [rewire]. *)
Inductive visited : PState -> Prop :=
  | visited_loop k s path :
      loop k = Some (s, path) -> visited s
  | visited_rewire k s path nearest_q nearest_idx nbrs min_cost pidx j s' :
      loop k = Some (s, path) ->
      nearest_neighbor (random_state k) (T s) = Some (nearest_q, nearest_idx) ->
      let new_q := new_state nearest_q (random_state k) in
      collision_free new_q && _q_in_limits new_q = true ->
      choose_parent s nearest_q nearest_idx new_q = Some (nbrs, min_cost, pidx) ->
      rewire (insert_vertex s new_q min_cost pidx).1 (take j nbrs) new_q
             (insert_vertex s new_q min_cost pidx).2 = Some s' ->
      visited s'.

End Planning.

(** ** Sampling and the export of the tree *)

Section Sampling.

Variable self : Planner.

(** [uniform i q_min q_max] is the value the [i]-th call of
    [np.random.uniform(q_min, q_max)] returns. *)
Variable uniform : nat -> R -> R -> R.

(** The [for i, (q_min, q_max) in enumerate(zip(...))] loop of
    [random_state]: [q_outs[i] = ...] raises IndexError past the end of
    [q_outs]. *)
Fixpoint fill_uniform (i : nat) (limits : list (R * R)) (q_outs : Config)
    : option Config :=
  match limits with
  | [] => Some q_outs
  | (q_min, q_max) :: rest =>
      if decide (i < length q_outs)
      then fill_uniform (S i) rest (<[i := uniform i q_min q_max]> q_outs)
      else None
  end.

(** The body of [random_state], for the value [coin] that
    [np.random.random()] returns. *)
Definition random_state_from (coin : R) : option Config :=
  let q_outs := replicate (dimension self) 0%R in
  if Rltb (epsilon self) coin
  then fill_uniform 0 (zip (q_limits_lower self) (q_limits_upper self)) q_outs
  else Some (goal_q self).

End Sampling.

(** [get_rrt_tree]: the pair of configurations of every edge. *)
Definition get_rrt_tree (t : Tree) : option (list (Config * Config)) :=
  mapM (fun edge : nat * nat =>
          from_node ← vertices t !! edge.1;
          goal_node ← vertices t !! edge.2;
          Some (from_node, goal_node))
       (edges t).


(** ** Example runs *)

Section Examples.
Local Open Scope R_scope.

(** Two joints, start [(0,0)], goal [(0,5)], step 5, four iterations. *)
Definition demo_planner : Planner :=
  mkPlanner [0; 0] [0; 5] 5 (1 / 10) 4 300 2 [-200; -200] [200; 200].

Definition demo_collision_free (q : Config) : bool := true.

Definition blocked (q : Config) : bool := false.

Definition demo_samples (k : nat) : Config :=
  match k with
  | 0%nat => [0; 5]
  | 1%nat => [3; 5]
  | 2%nat => [8; 5]
  | _ => [3; 4]
  end.

Definition demo_state0 : PState :=
  mkState (mkTree [[0; 0]] []) {[ 0%nat := 0 ]}.

Definition demo_state1 : PState :=
  mkState (mkTree [[0; 0]; [0; 5]] [(0, 1)%nat])
          (<[1%nat := 5]> {[ 0%nat := 0 ]}).

Definition demo_state2 : PState :=
  mkState (mkTree [[0; 0]; [0; 5]; [3; 5]] [(0, 1)%nat; (1, 2)%nat])
          (<[2%nat := 8]> (<[1%nat := 5]> {[ 0%nat := 0 ]})).

Definition demo_state3 : PState :=
  mkState (mkTree [[0; 0]; [0; 5]; [3; 5]; [8; 5]]
                  [(0, 1)%nat; (1, 2)%nat; (2, 3)%nat])
          (<[3%nat := 13]> (<[2%nat := 8]> (<[1%nat := 5]> {[ 0%nat := 0 ]}))).

Definition demo_state4 : PState :=
  mkState (mkTree [[0; 0]; [0; 5]; [3; 5]; [8; 5]; [3; 4]]
                  [(0, 1)%nat; (4, 2)%nat; (2, 3)%nat; (0, 4)%nat])
          (<[2%nat := 6]> (<[4%nat := 5]>
            (<[3%nat := 13]> (<[2%nat := 8]> (<[1%nat := 5]> {[ 0%nat := 0 ]}))))).

Definition demo_path : list Config := [[0; 0]; [0; 5]; [0; 5]].

(** The goal-biased sample, twice: the second one equals a tree vertex. *)
Definition steer_samples (k : nat) : Config := [0; 5].

Definition steer_state2 : PState :=
  mkState (mkTree [[0; 0]; [0; 5]; [0; 5]] [(0, 1)%nat; (1, 2)%nat])
          (<[2%nat := 5]> (<[1%nat := 5]> {[ 0%nat := 0 ]})).

(** One iteration, step 0.01, start and goal 100 apart. *)
Definition far_planner : Planner :=
  mkPlanner [0; 0] [100; 0] (1 / 100) (1 / 10) 1 300 2 [-200; -200] [200; 200].

Definition far_samples (k : nat) : Config := [100; 0].

Definition fresh_obj : PlannerObj :=
  mkObj PyNone PyNone 5 (1 / 10) 4 300 None 2 None None None.

Definition demo_limits (arm : option string) : Config * Config :=
  ([-200; -200], [200; 200]).

Definition ready_obj : PlannerObj :=
  mkObj (NdArray [0; 0]) (NdArray [0; 5]) 5 (1 / 10) 4 300 None 2
        (Some ([-200; -200], [200; 200])) None None.

End Examples.

Section MoreExamples.
Local Open Scope R_scope.

(** A source of uniform draws that returns the middle of the interval. *)
Definition mid_uniform (i : nat) (q_min q_max : R) : R := (q_min + q_max) / 2.

(** A planner whose dimension is below the number of joint limits. *)
Definition short_planner : Planner :=
  mkPlanner [0] [1] 5 (1 / 10) 4 300 1 [-200; -200] [200; 200].

End MoreExamples.

(** * Properties *)

(** ** Real comparisons *)

Section RealFacts.
Local Open Scope R_scope.

Lemma Rltb_true x y : Rltb x y = true <-> x < y.
Proof. unfold Rltb. destruct (Rlt_dec x y); split; intros; try done. Qed.

Lemma Rltb_false x y : Rltb x y = false <-> y <= x.
Proof. unfold Rltb. destruct (Rlt_dec x y); split; intros; try done; lra. Qed.

Lemma Rleb_true x y : Rleb x y = true <-> x <= y.
Proof. unfold Rleb. destruct (Rle_dec x y); split; intros; try done. Qed.

Lemma Rleb_false x y : Rleb x y = false <-> y < x.
Proof. unfold Rleb. destruct (Rle_dec x y); split; intros; try done; lra. Qed.

Lemma Reqb_true x y : Reqb x y = true <-> x = y.
Proof. unfold Reqb. destruct (Req_dec_T x y); split; intros; try done. Qed.

Lemma sq_nonneg (x : R) : 0 <= x * x.
Proof. apply Rle_0_sqr. Qed.

End RealFacts.

(** ** The Euclidean distance *)

Section Geometry.
Local Open Scope R_scope.

Lemma sum_sq_nonneg v : 0 <= sum_sq v.
Proof. induction v as [|x v IH]; simpl; nra. Qed.

Lemma norm_sum_sq v : norm v = sqrt (sum_sq v).
Proof. reflexivity. Qed.

Lemma norm_nonneg v : 0 <= norm v.
Proof. apply sqrt_pos. Qed.

Lemma distance_nonneg a b : 0 <= distance a b.
Proof. apply norm_nonneg. Qed.

Lemma sum_sq_sub_sym a b : sum_sq (vec_sub a b) = sum_sq (vec_sub b a).
Proof.
  revert b. induction a as [|x a IH]; intros [|y b]; try reflexivity.
  unfold vec_sub in *. simpl. rewrite IH. lra.
Qed.

Lemma distance_sym a b : distance a b = distance b a.
Proof. unfold distance. rewrite !norm_sum_sq. by rewrite sum_sq_sub_sym. Qed.

Lemma sum_sq_scale c v : sum_sq (map (fun x => x * c) v) = c * c * sum_sq v.
Proof.
  induction v as [|x v IH]; simpl; [lra|]. rewrite IH. lra.
Qed.

Lemma norm_scale c v : 0 <= c -> norm (map (fun x => x * c) v) = c * norm v.
Proof.
  intros Hc. rewrite !norm_sum_sq, sum_sq_scale.
  rewrite sqrt_mult; [|nra|apply sum_sq_nonneg].
  by rewrite sqrt_square.
Qed.

Lemma np_equal_all_eq a b :
  length a = length b -> np_equal_all a b = true <-> a = b.
Proof.
  revert b. induction a as [|x a IH]; intros [|y b] Hlen; simpl in *; try done.
  unfold np_equal_all in *. simpl. rewrite andb_true_iff, Reqb_true, IH by lia.
  split; [intros [-> ->]; done | intros [= -> ->]; done].
Qed.

Lemma norm_zero_iff v : norm v = 0 <-> Forall (fun x => x = 0) v.
Proof.
  rewrite norm_sum_sq. split.
  - intros H. apply sqrt_eq_0 in H; [|apply sum_sq_nonneg].
    induction v as [|x v IH]; [constructor|].
    simpl in H. pose proof (sum_sq_nonneg v) as Hv.
    assert (x * x = 0) by nra. assert (x = 0) by nra.
    constructor; [done|]. apply IH. nra.
  - intros H. replace (sum_sq v) with 0; [apply sqrt_0|].
    induction H as [|x v -> _ IH]; simpl; [done|]. rewrite <- IH. lra.
Qed.

Lemma distance_zero_iff a b : length a = length b -> distance a b = 0 <-> a = b.
Proof.
  intros Hlen. unfold distance. rewrite norm_zero_iff. unfold vec_sub.
  revert b Hlen. induction a as [|x a IH]; intros [|y b] Hlen; simpl in *; try done.
  rewrite Forall_cons, IH by lia. split.
  - intros [? ->]. f_equal. lra.
  - intros [= -> ->]. split; [lra|done].
Qed.

(** Minkowski in the plane, the step of the triangle inequality. *)
Lemma plane_triangle x y p q :
  0 <= p -> 0 <= q ->
  sqrt ((x + y) * (x + y) + (p + q) * (p + q)) <=
  sqrt (x * x + p * p) + sqrt (y * y + q * q).
Proof.
  intros Hp Hq.
  set (s := sqrt (x * x + p * p)). set (t := sqrt (y * y + q * q)).
  assert (Hs : 0 <= s) by apply sqrt_pos.
  assert (Ht : 0 <= t) by apply sqrt_pos.
  assert (Hs2 : s * s = x * x + p * p) by (apply sqrt_sqrt; nra).
  assert (Ht2 : t * t = y * y + q * q) by (apply sqrt_sqrt; nra).
  clearbody s t.
  rewrite <- (sqrt_square (s + t)) by lra.
  pose proof (sq_nonneg (x + y)). pose proof (sq_nonneg (p + q)).
  pose proof (sq_nonneg (s + t)).
  apply sqrt_le_1; [lra|lra|].
  assert (x * y + p * q <= s * t).
  { destruct (Rle_dec (x * y + p * q) 0) as [Hn|Hn]; [nra|].
    assert ((x * y + p * q) * (x * y + p * q) <= (s * t) * (s * t)).
    { pose proof (sq_nonneg (x * q - p * y)) as Hsq.
      replace (s * t * (s * t)) with ((s * s) * (t * t)) by lra.
      rewrite Hs2, Ht2. lra. }
    apply Rnot_le_lt in Hn.
    destruct (Rle_dec (x * y + p * q) (s * t)) as [|Hgt]; [done|].
    apply Rnot_le_lt in Hgt.
    assert (0 <= s * t) by nra.
    assert (s * t * (s * t) < (x * y + p * q) * (x * y + p * q)) by nra.
    lra. }
  lra.
Qed.

Lemma norm_cons x v : norm (x :: v) = sqrt (x * x + norm v * norm v).
Proof.
  rewrite !norm_sum_sq. simpl.
  by rewrite sqrt_sqrt by apply sum_sq_nonneg.
Qed.

Lemma norm_nil : norm [] = 0.
Proof. unfold norm. simpl. apply sqrt_0. Qed.

Lemma norm_triangle u v :
  norm (zip_with Rplus u v) <= norm u + norm v.
Proof.
  revert v. induction u as [|x u IH]; intros [|y v].
  - change (zip_with Rplus [] []) with (@nil R). rewrite norm_nil. lra.
  - change (zip_with Rplus [] (y :: v)) with (@nil R).
    pose proof (norm_nonneg (y :: v)). rewrite norm_nil. lra.
  - change (zip_with Rplus (x :: u) []) with (@nil R).
    pose proof (norm_nonneg (x :: u)). rewrite norm_nil. lra.
  - change (zip_with Rplus (x :: u) (y :: v))
      with ((x + y) :: zip_with Rplus u v).
    rewrite !norm_cons.
    etransitivity; [|apply plane_triangle; apply norm_nonneg].
    pose proof (sq_nonneg (x + y)).
    pose proof (sq_nonneg (norm (zip_with Rplus u v))).
    pose proof (sq_nonneg (norm u + norm v)).
    apply sqrt_le_1; [lra|lra|].
    specialize (IH v). pose proof (norm_nonneg (zip_with Rplus u v)).
    pose proof (norm_nonneg u). pose proof (norm_nonneg v). nra.
Qed.

Lemma vec_sub_split a b c :
  length a = length b -> length b = length c ->
  vec_sub c a = zip_with Rplus (vec_sub c b) (vec_sub b a).
Proof.
  unfold vec_sub. revert b c. induction a as [|x a IH]; intros [|y b] [|z c] H1 H2; simpl in *; try done.
  f_equal; [lra|]. apply IH; lia.
Qed.

Lemma distance_triangle a b c :
  length a = length b -> length b = length c ->
  distance a c <= distance a b + distance b c.
Proof.
  intros H1 H2. unfold distance. rewrite (vec_sub_split a b c) by done.
  rewrite Rplus_comm. apply norm_triangle.
Qed.

End Geometry.

(** ** Python indexing *)

Lemma py_index_pred len v :
  1 <= v <= len -> py_index len (Z.of_nat v - 1) = Some (v - 1).
Proof.
  intros Hv. unfold py_index. rewrite decide_True by lia. f_equal. lia.
Qed.

Lemma py_index_last len :
  1 <= len -> py_index len (-1) = Some (len - 1).
Proof.
  intros Hv. unfold py_index. rewrite decide_False by lia.
  rewrite decide_True by lia. f_equal. lia.
Qed.

Lemma py_index_lt len i k : py_index len i = Some k -> k < len.
Proof.
  unfold py_index. repeat case_decide; intros [= <-]; lia.
Qed.

(** ** Parent links and chains to the root *)

Lemma find_child_offset (es : list (nat * nat)) (o v : nat) :
  (forall k e, es !! k = Some e -> e.2 = o + S k) ->
  List.find (fun e => Nat.eqb e.2 v) es =
    if decide (v <= o) then None else es !! (v - o - 1).
Proof.
  revert o. induction es as [|e es IH]; intros o Hes; simpl.
  - case_decide; [done|]. by rewrite lookup_nil.
  - pose proof (Hes 0 e eq_refl) as He. simpl in He.
    destruct (Nat.eqb_spec e.2 v) as [Heq|Hne].
    + rewrite decide_False by lia. replace (v - o - 1) with 0 by lia. done.
    + rewrite (IH (S o)).
      * repeat case_decide; try lia; try done.
        replace (v - o - 1) with (S (v - S o - 1)) by lia. done.
      * intros k e' Hk. specialize (Hes (S k) e' Hk). lia.
Qed.

Lemma parent_lookup (t : Tree) (v : nat) :
  (forall k e, edges t !! k = Some e -> e.2 = S k) ->
  parent t v = if decide (v = 0) then None else fst <$> edges t !! (v - 1).
Proof.
  intros Hes. unfold parent. rewrite (find_child_offset _ 0) by done.
  repeat case_decide; try lia; try done. by replace (v - 0 - 1) with (v - 1) by lia.
Qed.

Lemma root_chain_functional t v l l' :
  root_chain t v l -> root_chain t v l' -> l = l'.
Proof.
  intros H. revert l'. induction H as [|v p l Hv Hp Hc IH]; intros l' H'.
  - by inversion H'.
  - inversion H' as [|v' p' l'' _ Hp' Hc']; subst; [done|].
    rewrite Hp in Hp'. injection Hp' as <-. f_equal. by apply IH.
Qed.

Lemma root_chain_suffix t v l x :
  root_chain t v l -> In x l ->
  exists lx, root_chain t x lx /\ length lx <= length l.
Proof.
  induction 1 as [|v p l Hv Hp Hc IH]; intros Hin; simpl in *; [done|].
  destruct Hin as [<-|Hin].
  - exists (v :: l). split; [by econstructor|done].
  - destruct (IH Hin) as (lx & ? & ?). exists lx. split; [done|lia].
Qed.

Lemma root_chain_NoDup t v l : root_chain t v l -> List.NoDup l.
Proof.
  induction 1 as [|v p l Hv Hp Hc IH]; constructor; [|done].
  intros Hin. destruct (root_chain_suffix _ _ _ _ Hc Hin) as (lx & Hlx & Hlen).
  assert (lx = v :: l) as -> by (eapply root_chain_functional; [done|by econstructor]).
  simpl in Hlen. lia.
Qed.

Lemma root_chain_bound s v l :
  planner_inv s -> root_chain (T s) v l ->
  Forall (fun x => 1 <= x < length (vertices (T s))) l.
Proof.
  intros Hinv. induction 1 as [|v p l Hv Hp Hc IH]; constructor; [|done].
  split; [lia|].
  rewrite parent_lookup in Hp by (intros k e He; by apply (inv_edges s Hinv)).
  rewrite decide_False in Hp by done.
  destruct (edges (T s) !! (v - 1)) as [e|] eqn:He; [|done].
  apply lookup_lt_Some in He. pose proof (inv_len s Hinv). lia.
Qed.

Lemma root_chain_length s v l :
  planner_inv s -> root_chain (T s) v l ->
  length l + 1 <= length (vertices (T s)).
Proof.
  intros Hinv Hc.
  pose proof (root_chain_NoDup _ _ _ Hc) as Hnd.
  pose proof (root_chain_bound _ _ _ Hinv Hc) as Hb.
  pose proof (inv_len s Hinv) as Hlen.
  assert (length l <= length (seq 1 (length (edges (T s))))) as Hle.
  { apply List.NoDup_incl_length; [done|].
    intros x Hx. apply in_seq. rewrite Forall_forall in Hb.
    specialize (Hb x). rewrite <- list_elem_of_In in Hx. specialize (Hb Hx). lia. }
  rewrite length_seq in Hle. lia.
Qed.

Lemma planner_inv_valid s : planner_inv s -> valid_tree (T s).
Proof.
  intros Hinv. split; [apply (inv_len s Hinv)|]. split.
  - rewrite parent_lookup by (intros k e He; by apply (inv_edges s Hinv)). done.
  - intros v Hv. destruct (inv_reach s Hinv v Hv) as [l Hl].
    exists l. split; [done|]. pose proof (root_chain_length _ _ _ Hinv Hl). lia.
Qed.

Lemma parent_cost s v p :
  planner_inv s -> parent (T s) v = Some p ->
  v <> 0 /\ exists e, edges (T s) !! (v - 1) = Some e /\ e.1 = p /\
  exists cp cv qp qv,
    cost s !! p = Some cp /\ cost s !! v = Some cv /\
    vertices (T s) !! p = Some qp /\ vertices (T s) !! v = Some qv /\
    (cp + distance qp qv <= cv)%R.
Proof.
  intros Hinv Hp.
  rewrite parent_lookup in Hp by (intros k e He; by apply (inv_edges s Hinv)).
  case_decide; [done|]. split; [done|].
  destruct (edges (T s) !! (v - 1)) as [e|] eqn:He; [|done].
  injection Hp as Hp. exists e. split; [done|]. split; [done|].
  destruct (inv_cost s Hinv _ _ He) as (cp & cv & qp & qv & H1 & H2 & H3 & H4 & H5).
  replace (S (v - 1)) with v in * by lia. subst p. by exists cp, cv, qp, qv.
Qed.

(** Along a chain to the root the recorded costs do not increase. *)
Lemma root_cost_le s v l cv c0 :
  planner_inv s -> root_chain (T s) v l ->
  cost s !! v = Some cv -> cost s !! 0 = Some c0 -> (c0 <= cv)%R.
Proof.
  intros Hinv Hc. revert cv. induction Hc as [|v p l Hv Hp Hc IH]; intros cv Hcv H0.
  - rewrite Hcv in H0. injection H0 as ->. lra.
  - destruct (parent_cost _ _ _ Hinv Hp) as (_ & e & _ & _ & cp & cv' & qp & qv & H1 & H2 & _ & _ & H5).
    rewrite Hcv in H2. injection H2 as <-.
    specialize (IH cp H1 H0). pose proof (distance_nonneg qp qv). lra.
Qed.

Section PlanningFacts.

Variable self : Planner.
Variable collision_free : Config -> bool.
Variable random_state : nat -> Config.

Lemma get_new_cost_Some s idx A B c :
  get_new_cost s idx A B = Some c <->
  exists c0, cost s !! idx = Some c0 /\ c = (c0 + distance A B)%R.
Proof.
  unfold get_new_cost. destruct (cost s !! idx) as [c0|]; simpl.
  - split; [intros [= <-]; eauto|intros (? & [= <-] & ->); done].
  - split; [done|intros (? & ? & _); done].
Qed.

(** What one pass of the loop of [rewire] does: nothing, or, for a
    collision-free neighbour whose recorded cost is strictly larger than the
    cost through the new vertex, the update of its cost and parent. *)
Lemma rewire_one_spec s i new_q new_idx s' :
  rewire_one collision_free s i new_q new_idx = Some s' ->
  s' = s \/
  exists v cn ci k,
    vertices (T s) !! i = Some v /\ collision_free v = true /\
    cost s !! new_idx = Some cn /\ cost s !! i = Some ci /\
    (cn + distance new_q v < ci)%R /\
    py_index (length (edges (T s))) (Z.of_nat i - 1) = Some k /\
    s' = mkState (set_edge_parent k new_idx (T s))
                 (<[i := (cn + distance new_q v)%R]> (cost s)).
Proof.
  unfold rewire_one. intros H.
  destruct (vertices (T s) !! i) as [v|] eqn:Hv; simpl in H; [|done].
  destruct (get_new_cost s new_idx new_q v) as [nc|] eqn:Hnc; simpl in H; [|done].
  apply get_new_cost_Some in Hnc as (cn & Hcn & ->).
  destruct (collision_free v) eqn:Hcol; [|left; congruence].
  destruct (cost s !! i) as [ci|] eqn:Hci; simpl in H; [|done].
  destruct (Rltb _ ci) eqn:Hlt; [|left; congruence].
  apply Rltb_true in Hlt.
  destruct (py_index _ _) as [k|] eqn:Hk; simpl in H; [|done].
  right. exists v, cn, ci, k. injection H as <-. done.
Qed.

Lemma rewire_one_inv s i new_q new_idx s' :
  planner_inv s -> vertices (T s) !! new_idx = Some new_q ->
  rewire_one collision_free s i new_q new_idx = Some s' ->
  planner_inv s'.
Proof.
  intros Hinv Hnew H.
  destruct (rewire_one_spec _ _ _ _ _ H)
    as [->|(v & cn & ci & k & Hv & _ & Hcn & Hci & Hlt & Hk & ->)]; [done|].
  pose proof (inv_len s Hinv) as Hlen.
  assert (Hnewlt : new_idx < length (vertices (T s))) by (by eapply lookup_lt_Some).
  assert (Hilt : i < length (vertices (T s))) by (by eapply lookup_lt_Some).
  pose proof (distance_nonneg new_q v) as Hd.
  (* vertex 0 is an ancestor of the new vertex: it is never rewired *)
  assert (Hi0 : i <> 0).
  { intros ->. destruct (inv_reach s Hinv new_idx Hnewlt) as [l Hl].
    pose proof (root_cost_le _ _ _ _ _ Hinv Hl Hcn Hci). lra. }
  rewrite py_index_pred in Hk by lia. injection Hk as <-.
  assert (Hne : new_idx <> i).
  { intros ->. rewrite Hcn in Hci. injection Hci as ->. lra. }
  destruct (lookup_lt_is_Some_2 (edges (T s)) (i - 1)) as [ei Hei]; [lia|].
  destruct (inv_edges s Hinv _ _ Hei) as [Hei2 Hei1].
  set (s' := mkState _ _).
  assert (Hedges' : forall k e', edges (T s') !! k = Some e' ->
            (k = i - 1 /\ e' = (new_idx, ei.2)) \/
            (k <> i - 1 /\ edges (T s) !! k = Some e')).
  { intros k e' He'. simpl in He'. destruct (decide (k = i - 1)) as [->|Hk].
    - left. split; [done|]. rewrite list_lookup_alter_eq, Hei in He'. by injection He' as <-.
    - right. split; [done|]. by rewrite list_lookup_alter_ne in He' by done. }
  assert (Hwf' : forall k e', edges (T s') !! k = Some e' ->
            e'.2 = S k /\ e'.1 < length (vertices (T s'))).
  { intros k e' He'. destruct (Hedges' _ _ He') as [[-> ->]|[_ He]]; simpl.
    - done.
    - by apply (inv_edges s Hinv). }
  assert (Hparent' : forall x, x <> i -> parent (T s') x = parent (T s) x).
  { intros x Hx. rewrite !parent_lookup.
    - case_decide; [done|]. simpl. rewrite list_lookup_alter_ne by lia. done.
    - intros k e He; by apply (inv_edges s Hinv).
    - intros k e He; by apply Hwf'. }
  assert (Hparent_i : parent (T s') i = Some new_idx).
  { rewrite parent_lookup by (intros k e He; by apply Hwf').
    rewrite decide_False by done. simpl.
    by rewrite list_lookup_alter_eq, Hei. }
  (* chains that stay below the cost of [i] do not pass through [i] *)
  assert (Hkeep : forall x l, root_chain (T s) x l ->
            forall cx, cost s !! x = Some cx -> (cx < ci)%R -> root_chain (T s') x l).
  { induction 1 as [|x p l Hx Hp Hc IH]; intros cx Hcx Hlt'; [constructor|].
    destruct (parent_cost _ _ _ Hinv Hp)
      as (_ & _ & _ & _ & cp & cv' & qp & qv & H1 & H2 & _ & _ & H5).
    rewrite Hcx in H2. injection H2 as <-.
    pose proof (distance_nonneg qp qv).
    assert (x <> i) by (intros ->; rewrite Hcx in Hci; injection Hci as ->; lra).
    econstructor; [done| |].
    - rewrite Hparent' by done. done.
    - eapply IH; [done|lra]. }
  constructor.
  - simpl. by rewrite length_alter.
  - done.
  - intros x. simpl. rewrite <- (inv_dom s Hinv x).
    destruct (decide (x = i)) as [->|Hx].
    + rewrite lookup_insert_eq, Hci. split; eauto.
    + by rewrite lookup_insert_ne by done.
  - intros k e' He'. destruct (Hedges' _ _ He') as [[-> ->]|[Hk He]]; simpl.
    + replace (S (i - 1)) with i by lia.
      exists cn, (cn + distance new_q v)%R, new_q, v.
      rewrite lookup_insert_ne by done. rewrite lookup_insert_eq.
      repeat split; try done; lra.
    + destruct (inv_cost s Hinv _ _ He) as (cp & cv & qp & qv & H1 & H2 & H3 & H4 & H5).
      rewrite (lookup_insert_ne _ i (S k)) by lia.
      destruct (decide (e'.1 = i)) as [Heq|Hneq].
      * rewrite Heq in *. rewrite lookup_insert_eq.
        rewrite Hci in H1. injection H1 as <-.
        exists (cn + distance new_q v)%R, cv, qp, qv. repeat split; try done; lra.
      * rewrite lookup_insert_ne by done. by exists cp, cv, qp, qv.
  - intros x Hx. simpl in Hx.
    destruct (inv_reach s Hinv x Hx) as [l Hl]. clear Hx.
    induction Hl as [|x p l Hx Hp Hc IH]; [exists []; constructor|].
    destruct IH as [l' Hl'].
    destruct (decide (x = i)) as [->|Hxi].
    + destruct (inv_reach s Hinv new_idx Hnewlt) as [ln Hln].
      exists (i :: ln). econstructor; [done|done|].
      eapply Hkeep; [done|done|lra].
    + exists (x :: l'). econstructor; [done| |done].
      by rewrite Hparent'.
Qed.

Lemma rewire_one_vertices s i new_q new_idx s' :
  rewire_one collision_free s i new_q new_idx = Some s' ->
  vertices (T s') = vertices (T s).
Proof.
  intros H. destruct (rewire_one_spec _ _ _ _ _ H)
    as [->|(v & cn & ci & k & _ & _ & _ & _ & _ & _ & ->)]; done.
Qed.

Lemma rewire_inv s nbrs new_q new_idx s' :
  planner_inv s -> vertices (T s) !! new_idx = Some new_q ->
  rewire collision_free s nbrs new_q new_idx = Some s' ->
  planner_inv s' /\ vertices (T s') = vertices (T s).
Proof.
  revert s. induction nbrs as [|i nbrs IH]; intros s Hinv Hnew H; simpl in H.
  - by injection H as <-.
  - destruct (rewire_one _ s i new_q new_idx) as [s1|] eqn:H1; simpl in H; [|done].
    pose proof (rewire_one_vertices _ _ _ _ _ H1) as Hv.
    destruct (IH s1) as [? Hv']; [by eapply rewire_one_inv|by rewrite Hv|done|].
    split; [done|]. by rewrite Hv'.
Qed.

Lemma rewire_one_total s i new_q new_idx :
  planner_inv s -> i < length (vertices (T s)) ->
  new_idx < length (vertices (T s)) ->
  is_Some (rewire_one collision_free s i new_q new_idx).
Proof.
  intros Hinv Hi Hnew. unfold rewire_one.
  destruct (lookup_lt_is_Some_2 _ _ Hi) as [v ->]. simpl.
  destruct (proj2 (inv_dom s Hinv new_idx) Hnew) as [cn Hcn].
  destruct (proj2 (inv_dom s Hinv i) Hi) as [ci Hci].
  unfold get_new_cost. rewrite Hcn. simpl.
  destruct (collision_free v); [|done]. rewrite Hci. simpl.
  destruct (Rltb _ ci) eqn:Hlt; [|done]. apply Rltb_true in Hlt.
  pose proof (distance_nonneg new_q v).
  assert (i <> 0).
  { intros ->. destruct (inv_reach s Hinv new_idx Hnew) as [l Hl].
    pose proof (root_cost_le _ _ _ _ _ Hinv Hl Hcn Hci). lra. }
  pose proof (inv_len s Hinv).
  rewrite py_index_pred by lia. done.
Qed.

Lemma rewire_total s nbrs new_q new_idx :
  planner_inv s -> vertices (T s) !! new_idx = Some new_q ->
  Forall (fun i => i < length (vertices (T s))) nbrs ->
  is_Some (rewire collision_free s nbrs new_q new_idx).
Proof.
  revert s. induction nbrs as [|i nbrs IH]; intros s Hinv Hnew Hall; simpl; [done|].
  apply Forall_cons in Hall as [Hi Hall].
  destruct (rewire_one_total s i new_q new_idx) as [s1 H1];
    [done|done|by eapply lookup_lt_Some|].
  rewrite H1. simpl.
  pose proof (rewire_one_vertices _ _ _ _ _ H1) as Hv.
  apply IH; [by eapply rewire_one_inv|by rewrite Hv|by rewrite Hv].
Qed.

Lemma rewire_take s nbrs new_q new_idx s' j :
  rewire collision_free s nbrs new_q new_idx = Some s' ->
  is_Some (rewire collision_free s (take j nbrs) new_q new_idx).
Proof.
  revert s j. induction nbrs as [|i nbrs IH]; intros s j H.
  - rewrite take_nil. done.
  - destruct j as [|j]; [done|]. simpl in *.
    destruct (rewire_one _ s i new_q new_idx) as [s1|]; simpl in *; [|done].
    by eapply IH.
Qed.

(** ** Insertion *)

Lemma insert_vertex_idx s new_q mc p :
  (insert_vertex s new_q mc p).2 = length (vertices (T s)).
Proof. simpl. rewrite length_app. simpl. lia. Qed.

Lemma insert_vertex_vertices s new_q mc p :
  vertices (T (insert_vertex s new_q mc p).1) = vertices (T s) ++ [new_q].
Proof. done. Qed.

Lemma insert_vertex_inv s new_q mc cp qp pidx :
  planner_inv s ->
  cost s !! pidx = Some cp -> vertices (T s) !! pidx = Some qp ->
  (cp + distance qp new_q <= mc)%R ->
  planner_inv (insert_vertex s new_q mc pidx).1.
Proof.
  intros Hinv Hcp Hqp Hmc.
  pose proof (inv_len s Hinv) as Hlen.
  assert (Hp : pidx < length (vertices (T s))) by (by eapply lookup_lt_Some).
  unfold insert_vertex. simpl. rewrite length_app. simpl.
  replace (length (vertices (T s)) + 1 - 1) with (length (vertices (T s))) by lia.
  set (n := length (vertices (T s))) in *.
  set (s' := mkState _ _).
  assert (Hedges' : forall k e, edges (T s') !! k = Some e ->
            (k < length (edges (T s)) /\ edges (T s) !! k = Some e) \/
            (k = length (edges (T s)) /\ e = (pidx, n))).
  { intros k e He. simpl in He. apply lookup_app_Some in He as [He|[Hk He]].
    - left. split; [by eapply lookup_lt_Some|done].
    - right. destruct (k - length (edges (T s))) as [|d] eqn:Hd; simpl in He; [|done].
      injection He as <-. split; [lia|done]. }
  assert (Hwf' : forall k e, edges (T s') !! k = Some e ->
            e.2 = S k /\ e.1 < length (vertices (T s'))).
  { intros k e He. simpl. rewrite length_app. simpl.
    destruct (Hedges' _ _ He) as [[_ He']|[-> ->]]; simpl.
    - destruct (inv_edges s Hinv _ _ He'). fold n in H0. lia.
    - fold n. lia. }
  assert (Hparent' : forall x p, parent (T s) x = Some p -> parent (T s') x = Some p).
  { intros x p Hx. destruct (parent_cost _ _ _ Hinv Hx) as (Hx0 & e & He & <- & _).
    rewrite parent_lookup by (intros k e' He'; by apply Hwf').
    rewrite decide_False by done. simpl.
    rewrite lookup_app_l by (by eapply lookup_lt_Some). by rewrite He. }
  assert (Hchain' : forall x l, root_chain (T s) x l -> root_chain (T s') x l).
  { induction 1; econstructor; eauto. }
  constructor.
  - simpl. rewrite !length_app. simpl. lia.
  - done.
  - intros v. simpl. rewrite length_app. simpl. fold n.
    destruct (decide (v = n)) as [->|Hv].
    + rewrite lookup_insert_eq. split; [lia|eauto].
    + rewrite lookup_insert_ne by done. rewrite (inv_dom s Hinv v). fold n. lia.
  - intros k e He. simpl.
    destruct (Hedges' _ _ He) as [[Hk He']|[-> ->]]; simpl.
    + destruct (inv_cost s Hinv _ _ He') as (c1 & c2 & q1 & q2 & H1 & H2 & H3 & H4 & H5).
      destruct (inv_edges s Hinv _ _ He') as [_ Hlt]. fold n in Hlt.
      exists c1, c2, q1, q2.
      rewrite !lookup_insert_ne by lia.
      rewrite !lookup_app_l by (fold n; lia). done.
    + replace (S (length (edges (T s)))) with n by lia.
      exists cp, mc, qp, new_q.
      rewrite lookup_insert_ne by lia. rewrite lookup_insert_eq.
      rewrite lookup_app_l by done.
      rewrite lookup_app_r by (fold n; lia). fold n.
      replace (n - n) with 0 by lia. done.
  - intros v Hv. simpl in Hv. rewrite length_app in Hv. simpl in Hv. fold n in Hv.
    destruct (decide (v = n)) as [->|Hne].
    + destruct (inv_reach s Hinv pidx Hp) as [l Hl].
      exists (n :: l). econstructor; [lia| |by apply Hchain'].
      rewrite parent_lookup by (intros k e' He'; by apply Hwf').
      rewrite decide_False by lia. simpl.
      rewrite lookup_app_r by lia.
      replace (n - 1 - length (edges (T s))) with 0 by lia. done.
    + destruct (inv_reach s Hinv v) as [l Hl]; [lia|].
      exists l. by apply Hchain'.
Qed.

(** ** Choice of the parent *)

Lemma near_indexes_from_spec o r q ds i :
  In i (near_indexes_from collision_free o r q ds) <->
  o <= i /\ exists d, ds !! (i - o) = Some d /\ (d <= r)%R /\ collision_free q = true.
Proof.
  revert o. induction ds as [|d ds IH]; intros o; simpl.
  - split; [done|]. intros (_ & d & Hd & _). by rewrite lookup_nil in Hd.
  - assert (Hrest : (o <= i /\ exists d', (d :: ds) !! (i - o) = Some d' /\
                       (d' <= r)%R /\ collision_free q = true) <->
                    ((i = o /\ (d <= r)%R /\ collision_free q = true) \/
                     (S o <= i /\ exists d', ds !! (i - S o) = Some d' /\
                       (d' <= r)%R /\ collision_free q = true))).
    { split.
      - intros (Ho & d' & Hd' & Hr & Hc).
        destruct (decide (i = o)) as [->|Hne].
        + left. replace (o - o) with 0 in Hd' by lia. injection Hd' as <-. done.
        + right. split; [lia|]. exists d'.
          replace (i - o) with (S (i - S o)) in Hd' by lia. done.
      - intros [(-> & Hr & Hc)|(Ho & d' & Hd' & Hr & Hc)].
        + split; [lia|]. exists d. replace (o - o) with 0 by lia. done.
        + split; [lia|]. exists d'.
          replace (i - o) with (S (i - S o)) by lia. done. }
    rewrite Hrest. clear Hrest.
    destruct (Rleb d r && collision_free q) eqn:Hb; simpl; rewrite IH.
    + apply andb_true_iff in Hb as [Hr Hc]. apply Rleb_true in Hr.
      split; [intros [<-|?]; [left|right]; done|].
      intros [(-> & _)|?]; [by left|by right].
    + split; [by right|]. intros [(-> & Hr & Hc)|?]; [|done].
      apply Rleb_true in Hr. rewrite Hr, Hc in Hb. done.
Qed.

Lemma find_near_neighbor_lt s q nbrs :
  find_near_neighbor self collision_free s q = Some nbrs ->
  Forall (fun i => i < length (vertices (T s))) nbrs.
Proof.
  unfold find_near_neighbor. case_decide; [done|]. intros [= <-].
  apply Forall_forall. intros i Hi. rewrite list_elem_of_In in Hi.
  apply near_indexes_from_spec in Hi as (_ & d & Hd & _).
  apply lookup_lt_Some in Hd. rewrite length_map in Hd. lia.
Qed.

Lemma get_minimum_cost_spec s nbrs new_q mc0 p0 mc p :
  get_minimum_cost collision_free s nbrs new_q mc0 p0 = Some (mc, p) ->
  (mc <= mc0)%R /\
  ((mc = mc0 /\ p = p0) \/
   exists cp qp, In p nbrs /\ cost s !! p = Some cp /\
     vertices (T s) !! p = Some qp /\ mc = (cp + distance new_q qp)%R).
Proof.
  revert mc0 p0. induction nbrs as [|i nbrs IH]; intros mc0 p0 H; simpl in H.
  - injection H as <- <-. split; [lra|by left].
  - destruct (vertices (T s) !! i) as [v|] eqn:Hv; simpl in H; [|done].
    destruct (get_new_cost s i new_q v) as [nc|] eqn:Hnc; simpl in H; [|done].
    apply get_new_cost_Some in Hnc as (ci & Hci & ->).
    destruct (Rltb _ mc0 && collision_free new_q) eqn:Hb.
    + apply andb_true_iff in Hb as [Hlt _]. apply Rltb_true in Hlt.
      destruct (IH _ _ H) as [Hle [[-> ->]|(cp & qp & Hin & ? & ? & ?)]].
      * split; [lra|]. right. exists ci, v. simpl. eauto.
      * split; [lra|]. right. exists cp, qp. simpl. eauto.
    + destruct (IH _ _ H) as [Hle [[-> ->]|(cp & qp & Hin & ? & ? & ?)]].
      * split; [lra|]. by left.
      * split; [lra|]. right. exists cp, qp. simpl. eauto.
Qed.

Lemma get_minimum_cost_total s nbrs new_q mc0 p0 :
  planner_inv s -> Forall (fun i => i < length (vertices (T s))) nbrs ->
  is_Some (get_minimum_cost collision_free s nbrs new_q mc0 p0).
Proof.
  intros Hinv. revert mc0 p0. induction nbrs as [|i nbrs IH]; intros mc0 p0 Hall; simpl; [done|].
  apply Forall_cons in Hall as [Hi Hall].
  destruct (lookup_lt_is_Some_2 _ _ Hi) as [v ->]. simpl.
  destruct (proj2 (inv_dom s Hinv i) Hi) as [ci Hci].
  unfold get_new_cost. rewrite Hci. simpl.
  destruct (_ && _); by apply IH.
Qed.

(** The chosen parent is an existing vertex and the cost recorded for the
    new vertex is the parent's cost plus the length of the new link. *)
Lemma choose_parent_spec s nearest_q nearest_idx new_q nbrs mc p :
  vertices (T s) !! nearest_idx = Some nearest_q ->
  choose_parent self collision_free s nearest_q nearest_idx new_q = Some (nbrs, mc, p) ->
  find_near_neighbor self collision_free s new_q = Some nbrs /\
  exists cp qp, cost s !! p = Some cp /\ vertices (T s) !! p = Some qp /\
    mc = (cp + distance qp new_q)%R.
Proof.
  intros Hnear H. unfold choose_parent in H.
  destruct (find_near_neighbor _ _ s new_q) as [nb|]; simpl in H; [|done].
  destruct (get_new_cost s nearest_idx nearest_q new_q) as [mc0|] eqn:Hmc0; simpl in H; [|done].
  apply get_new_cost_Some in Hmc0 as (c0 & Hc0 & ->).
  destruct (get_minimum_cost _ s nb new_q _ nearest_idx) as [[mc' p']|] eqn:Hmin; simpl in H; [|done].
  injection H as -> -> ->. split; [done|].
  destruct (get_minimum_cost_spec _ _ _ _ _ _ _ Hmin) as [_ [[-> ->]|(cp & qp & _ & ? & ? & ->)]].
  - by exists c0, nearest_q.
  - exists cp, qp. by rewrite (distance_sym qp new_q).
Qed.

Lemma choose_parent_total s nearest_q nearest_idx new_q :
  planner_inv s -> dimension self <> 0 ->
  nearest_idx < length (vertices (T s)) ->
  is_Some (choose_parent self collision_free s nearest_q nearest_idx new_q).
Proof.
  intros Hinv Hdim Hnear. unfold choose_parent.
  destruct (find_near_neighbor _ _ s new_q) as [nb|] eqn:Hnb; simpl.
  - destruct (proj2 (inv_dom s Hinv nearest_idx) Hnear) as [c0 Hc0].
    unfold get_new_cost. rewrite Hc0. simpl.
    destruct (get_minimum_cost_total s nb new_q (c0 + distance nearest_q new_q)%R nearest_idx)
      as [[mc p] ->]; [done|by eapply find_near_neighbor_lt|]. done.
  - unfold find_near_neighbor in Hnb. by rewrite decide_False in Hnb.
Qed.

(** ** Nearest neighbour *)

Lemma argmin_from_lt bi b i ds :
  bi < i -> argmin_from bi b i ds < i + length ds.
Proof.
  revert bi b i. induction ds as [|d ds IH]; intros bi b i Hbi; simpl; [lia|].
  destruct (Rltb d b).
  - specialize (IH i d (S i)). lia.
  - specialize (IH bi b (S i)). lia.
Qed.

Lemma nearest_neighbor_Some random_q tree nq ni :
  nearest_neighbor random_q tree = Some (nq, ni) ->
  vertices tree !! ni = Some nq.
Proof.
  unfold nearest_neighbor. intros H.
  destruct (argmin _) as [i|]; simpl in H; [|done].
  destruct (vertices tree !! i) as [q|] eqn:Hq; simpl in H; [|done].
  by injection H as <- <-.
Qed.

Lemma nearest_neighbor_total random_q tree :
  vertices tree <> [] -> is_Some (nearest_neighbor random_q tree).
Proof.
  unfold nearest_neighbor. destruct (vertices tree) as [|q0 qs] eqn:Hv; [done|]. intros _.
  simpl. set (i := argmin_from _ _ _ _).
  assert (Hi : i < 1 + length (map (fun vertex => distance random_q vertex) qs))
    by (apply argmin_from_lt; lia).
  rewrite length_map in Hi.
  destruct (lookup_lt_is_Some_2 (q0 :: qs) i) as [q Hq]; [simpl; lia|].
  rewrite Hq. done.
Qed.

(** ** Path extraction *)

(** With enough fuel the loop of [find_path] appends the configurations of
    the chain from [v] to the root, [v] first. *)
Lemma backtrack_chain s v l fuel path :
  planner_inv s -> root_chain (T s) v l -> length l <= fuel ->
  exists qs, Forall2 (fun x q => vertices (T s) !! x = Some q) l qs /\
    backtrack fuel (T s) v path = Some (path ++ qs).
Proof.
  intros Hinv Hc. revert fuel path.
  induction Hc as [|v p l Hv Hp Hc IH]; intros fuel path Hfuel.
  - exists []. split; [constructor|]. rewrite app_nil_r. by destruct fuel.
  - destruct fuel as [|fuel]; simpl in Hfuel; [lia|].
    destruct (parent_cost _ _ _ Hinv Hp)
      as (_ & e & He & <- & _ & _ & _ & qv & _ & _ & _ & Hqv & _).
    destruct (IH fuel (path ++ [qv])) as (qs & Hqs & Hb); [lia|].
    exists (qv :: qs). split; [by constructor|].
    simpl. rewrite decide_False by done. rewrite Hqv. simpl.
    pose proof (lookup_lt_Some _ _ _ He). rewrite py_index_pred by lia. simpl.
    rewrite He. simpl. rewrite Hb. by rewrite <- app_assoc.
Qed.

(** [find_path] on a tree with at least one edge: the path starts at the
    start configuration, follows the chain of the last vertex from the root
    down, and ends with the goal configuration. *)
Lemma find_path_fuel_spec s fuel :
  planner_inv s -> 1 <= length (edges (T s)) ->
  length (vertices (T s)) <= fuel ->
  exists l qs,
    root_chain (T s) (length (edges (T s))) l /\
    Forall2 (fun x q => vertices (T s) !! x = Some q) l qs /\
    find_path_fuel self fuel (T s) = Some (cur_q self :: rev qs ++ [goal_q self]).
Proof.
  intros Hinv Hlen Hfuel. unfold find_path_fuel.
  rewrite py_index_last by done. simpl.
  destruct (lookup_lt_is_Some_2 (edges (T s)) (length (edges (T s)) - 1)) as [e He]; [lia|].
  rewrite He. simpl.
  destruct (inv_edges s Hinv _ _ He) as [He2 _].
  replace (S (length (edges (T s)) - 1)) with (length (edges (T s))) in He2 by lia.
  rewrite He2.
  pose proof (inv_len s Hinv) as Hl.
  destruct (inv_reach s Hinv (length (edges (T s)))) as [l Hc]; [lia|].
  pose proof (root_chain_length _ _ _ Hinv Hc).
  destruct (backtrack_chain s _ l fuel [goal_q self] Hinv Hc) as (qs & Hqs & ->); [lia|].
  exists l, qs. split; [done|]. split; [done|]. simpl.
  f_equal. rewrite rev_app_distr. done.
Qed.

Lemma find_path_spec s :
  planner_inv s -> 1 <= length (edges (T s)) ->
  exists l qs,
    root_chain (T s) (length (edges (T s))) l /\
    Forall2 (fun x q => vertices (T s) !! x = Some q) l qs /\
    find_path self (T s) = Some (cur_q self :: rev qs ++ [goal_q self]).
Proof. intros. by apply find_path_fuel_spec. Qed.

(** ** The loop of [generate_path] *)

Lemma extend_inv s nearest_q nearest_idx new_q s' :
  planner_inv s -> vertices (T s) !! nearest_idx = Some nearest_q ->
  extend self collision_free s nearest_q nearest_idx new_q = Some s' ->
  planner_inv s' /\ vertices (T s') = vertices (T s) ++ [new_q].
Proof.
  intros Hinv Hnear H. unfold extend in H.
  destruct (choose_parent _ _ s nearest_q nearest_idx new_q)
    as [[[nbrs mc] p]|] eqn:Hch; simpl in H; [|done].
  destruct (choose_parent_spec _ _ _ _ _ _ _ Hnear Hch) as (_ & cp & qp & Hcp & Hqp & ->).
  change (rewire collision_free (insert_vertex s new_q (cp + distance qp new_q) p).1
            nbrs new_q (insert_vertex s new_q (cp + distance qp new_q) p).2 = Some s') in H.
  pose proof (insert_vertex_inv s new_q _ cp qp p Hinv Hcp Hqp (Rle_refl _)) as Hinv1.
  assert (Hnew : vertices (T (insert_vertex s new_q (cp + distance qp new_q) p).1)
            !! (insert_vertex s new_q (cp + distance qp new_q) p).2 = Some new_q).
  { rewrite insert_vertex_idx, insert_vertex_vertices.
    rewrite lookup_app_r by lia. by replace (_ - _) with 0 by lia. }
  destruct (rewire_inv _ _ _ _ _ Hinv1 Hnew H) as [? Hv'].
  split; [done|]. by rewrite Hv', insert_vertex_vertices.
Qed.

Lemma extend_total s nearest_q nearest_idx new_q :
  planner_inv s -> dimension self <> 0 ->
  vertices (T s) !! nearest_idx = Some nearest_q ->
  is_Some (extend self collision_free s nearest_q nearest_idx new_q).
Proof.
  intros Hinv Hdim Hnear. unfold extend.
  destruct (choose_parent_total s nearest_q nearest_idx new_q)
    as [[[nbrs mc] p] Hch]; [done|done|by eapply lookup_lt_Some|].
  rewrite Hch. simpl.
  destruct (choose_parent_spec _ _ _ _ _ _ _ Hnear Hch) as (Hnb & cp & qp & Hcp & Hqp & ->).
  change (is_Some (rewire collision_free (insert_vertex s new_q (cp + distance qp new_q) p).1
            nbrs new_q (insert_vertex s new_q (cp + distance qp new_q) p).2)).
  pose proof (insert_vertex_inv s new_q _ cp qp p Hinv Hcp Hqp (Rle_refl _)) as Hinv1.
  apply rewire_total; [done| |].
  - rewrite insert_vertex_idx, insert_vertex_vertices.
    rewrite lookup_app_r by lia. by replace (_ - _) with 0 by lia.
  - rewrite insert_vertex_vertices, length_app. simpl.
    eapply Forall_impl; [by eapply find_near_neighbor_lt|]. simpl. intros; lia.
Qed.

Lemma iteration_inv k s path s' path' :
  planner_inv s ->
  iteration self collision_free random_state k (s, path) = Some (s', path') ->
  planner_inv s'.
Proof.
  intros Hinv H. unfold iteration in H.
  destruct (nearest_neighbor _ (T s)) as [[nq ni]|] eqn:Hnn; simpl in H; [|done].
  apply nearest_neighbor_Some in Hnn.
  destruct (_ && _); [|by injection H as <- _].
  destruct (extend _ _ s nq ni _) as [s1|] eqn:Hext; simpl in H; [|done].
  destruct (extend_inv _ _ _ _ _ Hinv Hnn Hext) as [Hinv1 _].
  destruct (reach_to_goal _ _).
  - destruct (find_path _ _); simpl in H; [|done]. by injection H as <- _.
  - by injection H as <- _.
Qed.

Lemma init_state_inv : planner_inv (init_state self).1.
Proof.
  constructor; simpl.
  - done.
  - intros k e He. by rewrite lookup_nil in He.
  - intros v. destruct (decide (v = 0)) as [->|Hv].
    + rewrite lookup_singleton_eq. split; [lia|eauto].
    + rewrite lookup_singleton_ne by done. split; [intros []; done|lia].
  - intros k e He. by rewrite lookup_nil in He.
  - intros v Hv. replace v with 0 by lia. exists []. constructor.
Qed.

Lemma loop_inv k s path :
  loop self collision_free random_state k = Some (s, path) -> planner_inv s.
Proof.
  revert s path. induction k as [|k IH]; intros s path H; simpl in H.
  - injection H as <- _. apply init_state_inv.
  - destruct (loop _ _ _ k) as [[s0 p0]|]; simpl in H; [|done].
    eapply iteration_inv; [by eapply IH|done].
Qed.

Lemma visited_inv s :
  visited self collision_free random_state s -> planner_inv s.
Proof.
  intros [k s0 path H|k s0 path nq ni nbrs mc p j s' H Hnn new_q Hok Hch Hrw].
  - by eapply loop_inv.
  - apply loop_inv in H. apply nearest_neighbor_Some in Hnn.
    destruct (choose_parent_spec _ _ _ _ _ _ _ Hnn Hch) as (_ & cp & qp & Hcp & Hqp & ->).
    pose proof (insert_vertex_inv s0 new_q _ cp qp p H Hcp Hqp (Rle_refl _)) as Hinv1.
    eapply rewire_inv; [exact Hinv1| |exact Hrw].
    rewrite insert_vertex_idx, insert_vertex_vertices.
    rewrite lookup_app_r by lia. by replace (_ - _) with 0 by lia.
Qed.

(** [generate_path] raises no exception and its loops end, whatever the
    samples and the oracle's answers, as long as the dimension is not 0. *)
Lemma iteration_total k s path :
  planner_inv s -> dimension self <> 0 ->
  is_Some (iteration self collision_free random_state k (s, path)).
Proof.
  intros Hinv Hdim. unfold iteration.
  destruct (nearest_neighbor_total (random_state k) (T s)) as [[nq ni] Hnn].
  { pose proof (inv_len s Hinv). destruct (vertices (T s)); simpl in *; [lia|done]. }
  rewrite Hnn. simpl. pose proof (nearest_neighbor_Some _ _ _ _ Hnn) as Hni.
  destruct (_ && _); [|done].
  destruct (extend_total s nq ni (new_state self nq (random_state k)))
    as [s1 Hext]; [done..|].
  rewrite Hext. simpl.
  destruct (extend_inv _ _ _ _ _ Hinv Hni Hext) as [Hinv1 Hv1].
  destruct (reach_to_goal _ _); [|done].
  destruct (find_path_spec s1 Hinv1) as (l & qs & _ & _ & ->); [|done].
  pose proof (inv_len s1 Hinv1) as Hl. rewrite Hv1, length_app in Hl. simpl in Hl.
  pose proof (inv_len s Hinv). lia.
Qed.

Lemma loop_total k :
  dimension self <> 0 -> is_Some (loop self collision_free random_state k).
Proof.
  intros Hdim. induction k as [|k [[s p] IH]]; simpl; [done|].
  rewrite IH. simpl. apply iteration_total; [by eapply loop_inv|done].
Qed.

End PlanningFacts.

(** ** Steering *)

Section Steering.
Local Open Scope R_scope.

Variable self : Planner.

Lemma steer_offset (a b : Config) (dist step : R) :
  length a = length b -> dist <> 0 ->
  zip_with Rplus a
    (map (fun u => u * step) (map (fun x => x / dist) (vec_sub b a))) =
  zip_with (fun n r => n + step / dist * (r - n)) a b.
Proof.
  intros Hlen Hd. unfold vec_sub. revert b Hlen.
  induction a as [|x a IH]; intros [|y b] Hlen; simpl in *; try done.
  f_equal; [field; done|]. apply IH. lia.
Qed.

Lemma steer_sub (a b : Config) (t : R) :
  length a = length b ->
  vec_sub (zip_with (fun n r => n + t * (r - n)) a b) a =
  map (fun x => x * t) (vec_sub b a).
Proof.
  unfold vec_sub. revert b. induction a as [|x a IH]; intros [|y b] Hlen; simpl in *; try done.
  f_equal; [lra|]. apply IH. lia.
Qed.

Lemma new_state_same (a b : Config) :
  np_equal_all a b = true -> new_state self a b = a.
Proof. unfold new_state. by intros ->. Qed.

(** Away from the nearest vertex the new configuration is the point of the
    segment from [nearest_q] to [random_q] at distance
    [min(delta, distance)] from [nearest_q]. *)
Lemma new_state_segment (nearest_q random_q : Config) :
  length nearest_q = length random_q -> nearest_q <> random_q ->
  0 <= delta_dis self ->
  let d := distance nearest_q random_q in
  let t := Rmin (delta_dis self) d / d in
  0 < d /\ 0 <= t <= 1 /\
  new_state self nearest_q random_q =
    zip_with (fun n r => n + t * (r - n)) nearest_q random_q /\
  distance nearest_q (new_state self nearest_q random_q) = Rmin (delta_dis self) d.
Proof.
  intros Hlen Hne Hdelta d t.
  assert (Hd : 0 < d).
  { pose proof (distance_nonneg nearest_q random_q) as Hd. fold d in Hd.
    destruct (Req_dec_T d 0) as [H0|H0]; [|lra].
    apply distance_zero_iff in H0; done. }
  assert (Hmin : 0 <= Rmin (delta_dis self) d <= d).
  { split; [apply Rmin_glb; lra|apply Rmin_r]. }
  assert (Ht : 0 <= t <= 1).
  { unfold t. split.
    - apply Rmult_le_pos; [lra|]. apply Rlt_le, Rinv_0_lt_compat, Hd.
    - replace 1 with (d / d) by (field; lra).
      apply Rmult_le_compat_r; [apply Rlt_le, Rinv_0_lt_compat, Hd|lra]. }
  assert (Hnew : new_state self nearest_q random_q =
            zip_with (fun n r => n + t * (r - n)) nearest_q random_q).
  { unfold new_state.
    destruct (np_equal_all nearest_q random_q) eqn:Heq.
    - apply np_equal_all_eq in Heq; done.
    - rewrite (distance_sym random_q nearest_q). fold d.
      rewrite steer_offset by (done || lra). done. }
  split; [done|]. split; [done|]. split; [done|].
  rewrite Hnew. unfold distance at 1. rewrite steer_sub by done.
  rewrite norm_scale by lra.
  change (norm (vec_sub random_q nearest_q)) with d.
  unfold t. field. lra.
Qed.

Lemma new_state_length (nearest_q random_q : Config) :
  length nearest_q = length random_q ->
  length (new_state self nearest_q random_q) = length nearest_q.
Proof.
  intros Hlen. unfold new_state. destruct (np_equal_all _ _); [done|].
  rewrite length_zip_with, !length_map. unfold vec_sub.
  rewrite length_zip_with. lia.
Qed.

(** The step from the nearest vertex is never longer than [delta]. *)
Lemma new_state_step_le (nearest_q random_q : Config) :
  length nearest_q = length random_q -> 0 <= delta_dis self ->
  distance nearest_q (new_state self nearest_q random_q) <= delta_dis self.
Proof.
  intros Hlen Hdelta.
  destruct (np_equal_all nearest_q random_q) eqn:Heq.
  - rewrite new_state_same by done.
    replace (distance nearest_q nearest_q) with 0; [done|].
    symmetry. by apply distance_zero_iff.
  - destruct (new_state_segment nearest_q random_q) as (_ & _ & _ & ->); [done| |done|].
    + intros Habs. apply np_equal_all_eq in Habs; [|done]. congruence.
    + apply Rmin_l.
Qed.

End Steering.

(** ** Evaluating one iteration *)

Section Evaluation.
Local Open Scope R_scope.

Variable self : Planner.
Variable collision_free : Config -> bool.
Variable random_state : nat -> Config.

(** A sample within [delta] of the nearest vertex is reached exactly. *)
Lemma new_state_reach (nearest_q random_q : Config) :
  length nearest_q = length random_q -> 0 <= delta_dis self ->
  distance nearest_q random_q <= delta_dis self ->
  new_state self nearest_q random_q = random_q.
Proof.
  intros Hlen Hdelta Hd.
  destruct (np_equal_all nearest_q random_q) eqn:Heq.
  - rewrite new_state_same by done. by apply np_equal_all_eq.
  - destruct (new_state_segment self nearest_q random_q) as (Hpos & _ & -> & _); [done| |done|].
    { intros Habs. apply np_equal_all_eq in Habs; [|done]. congruence. }
    assert (Rmin (delta_dis self) (distance nearest_q random_q) =
            distance nearest_q random_q) as -> by (by apply Rmin_right).
    replace (distance nearest_q random_q / distance nearest_q random_q) with 1
      by (field; lra).
    clear -Hlen. revert random_q Hlen.
    induction nearest_q as [|x a IH]; intros [|y b] Hlen; simpl in *; try done.
    rewrite IH by lia. f_equal. lra.
Qed.

Lemma iteration_reject k s path nearest_q nearest_idx :
  nearest_neighbor (random_state k) (T s) = Some (nearest_q, nearest_idx) ->
  collision_free (new_state self nearest_q (random_state k)) &&
    _q_in_limits self (new_state self nearest_q (random_state k)) = false ->
  iteration self collision_free random_state k (s, path) = Some (s, path).
Proof. intros Hnn Hno. unfold iteration. rewrite Hnn. simpl. by rewrite Hno. Qed.

Lemma iteration_accept k s path nearest_q nearest_idx new_q nbrs mc p s' :
  nearest_neighbor (random_state k) (T s) = Some (nearest_q, nearest_idx) ->
  new_state self nearest_q (random_state k) = new_q ->
  collision_free new_q = true -> _q_in_limits self new_q = true ->
  choose_parent self collision_free s nearest_q nearest_idx new_q = Some (nbrs, mc, p) ->
  rewire collision_free (insert_vertex s new_q mc p).1 nbrs new_q
         (insert_vertex s new_q mc p).2 = Some s' ->
  iteration self collision_free random_state k (s, path) =
    if reach_to_goal self new_q
    then p' ← find_path self (T s'); Some (s', Some p')
    else Some (s', path).
Proof.
  intros Hnn Hnew Hcf Hlim Hch Hrw. unfold iteration. rewrite Hnn. simpl.
  rewrite Hnew, Hcf, Hlim. simpl. unfold extend. rewrite Hch. simpl.
  simpl in Hrw. rewrite Hrw. done.
Qed.

End Evaluation.

(** ** What one iteration does to the tree, the costs and the path *)

Section Run.
Local Open Scope R_scope.

Variable self : Planner.
Variable collision_free : Config -> bool.
Variable random_state : nat -> Config.

Lemma iteration_cases k s path s' path' :
  planner_inv s ->
  iteration self collision_free random_state k (s, path) = Some (s', path') ->
  exists nq ni,
    nearest_neighbor (random_state k) (T s) = Some (nq, ni) /\
    vertices (T s) !! ni = Some nq /\
    let new_q := new_state self nq (random_state k) in
    (collision_free new_q && _q_in_limits self new_q = false /\
       s' = s /\ path' = path) \/
    (collision_free new_q && _q_in_limits self new_q = true /\
       extend self collision_free s nq ni new_q = Some s' /\
       planner_inv s' /\
       vertices (T s') = vertices (T s) ++ [new_q] /\
       ((reach_to_goal self new_q = false /\ path' = path) \/
        (reach_to_goal self new_q = true /\
           exists p, path' = Some p /\ find_path self (T s') = Some p))).
Proof.
  intros Hinv H. unfold iteration in H.
  destruct (nearest_neighbor _ (T s)) as [[nq ni]|] eqn:Hnn; simpl in H; [|done].
  pose proof (nearest_neighbor_Some _ _ _ _ Hnn) as Hni.
  exists nq, ni. split; [done|]. split; [done|]. cbv zeta.
  destruct (_ && _) eqn:Hok.
  - right. split; [done|].
    destruct (extend _ _ s nq ni _) as [s1|] eqn:Hext; simpl in H; [|done].
    destruct (extend_inv _ _ _ _ _ _ _ Hinv Hni Hext) as [Hinv1 Hv1].
    destruct (reach_to_goal _ _) eqn:Hgoal.
    + destruct (find_path _ _) as [p|] eqn:Hp; simpl in H; [|done].
      injection H as <- <-. do 3 (split; [done|]). right. split; [done|]. by exists p.
    + injection H as <- <-. do 3 (split; [done|]). by left.
  - left. by injection H as <- <-.
Qed.

Lemma loop_succ k sp :
  loop self collision_free random_state (S k) = Some sp ->
  exists sp0, loop self collision_free random_state k = Some sp0 /\
    iteration self collision_free random_state k sp0 = Some sp.
Proof.
  simpl. destruct (loop _ _ _ k) as [sp0|]; simpl; [|done]. intros H. by exists sp0.
Qed.

(** The vertex sequence only grows, by at most one vertex per iteration. *)
Lemma loop_vertices k s path :
  loop self collision_free random_state k = Some (s, path) ->
  vertices (T s) !! 0%nat = Some (cur_q self) /\
  (length (vertices (T s)) <= k + 1)%nat.
Proof.
  revert s path. induction k as [|k IH]; intros s path H.
  - injection H as <- _. simpl. split; [done|lia].
  - apply loop_succ in H as ([s0 p0] & H0 & Hit).
    destruct (IH _ _ H0) as [Hroot Hlen].
    destruct (iteration_cases _ _ _ _ _ (loop_inv _ _ _ _ _ _ H0) Hit)
      as (nq & ni & _ & _ & [(_ & -> & _)|(_ & _ & _ & Hv & _)]).
    + split; [done|lia].
    + rewrite Hv, length_app. simpl. split; [|lia].
      rewrite lookup_app_l; [done|]. by eapply lookup_lt_Some.
Qed.

Lemma insert_vertex_new s new_q mc p :
  vertices (T (insert_vertex s new_q mc p).1) !! (insert_vertex s new_q mc p).2
  = Some new_q.
Proof.
  rewrite insert_vertex_idx, insert_vertex_vertices.
  rewrite lookup_app_r by lia. by replace (_ - _)%nat with 0%nat by lia.
Qed.

(** The cost of the root stays 0. *)
Lemma rewire_one_root s i new_q new_idx s' :
  planner_inv s -> vertices (T s) !! new_idx = Some new_q ->
  rewire_one collision_free s i new_q new_idx = Some s' ->
  cost s' !! 0%nat = cost s !! 0%nat.
Proof.
  intros Hinv Hnew H.
  destruct (rewire_one_spec _ _ _ _ _ _ H)
    as [->|(v & cn & ci & k & Hv & _ & Hcn & Hci & Hlt & Hk & ->)]; [done|].
  simpl. destruct (decide (i = 0%nat)) as [->|Hi]; [|by rewrite lookup_insert_ne].
  assert (Hnewlt : (new_idx < length (vertices (T s)))%nat) by (by eapply lookup_lt_Some).
  destruct (inv_reach s Hinv new_idx Hnewlt) as [l Hl].
  pose proof (root_cost_le _ _ _ _ _ Hinv Hl Hcn Hci).
  pose proof (distance_nonneg new_q v). lra.
Qed.

Lemma rewire_root s nbrs new_q new_idx s' :
  planner_inv s -> vertices (T s) !! new_idx = Some new_q ->
  rewire collision_free s nbrs new_q new_idx = Some s' ->
  cost s' !! 0%nat = cost s !! 0%nat.
Proof.
  revert s. induction nbrs as [|i nbrs IH]; intros s Hinv Hnew H; simpl in H.
  - by injection H as <-.
  - destruct (rewire_one _ s i new_q new_idx) as [s1|] eqn:H1; simpl in H; [|done].
    rewrite <- (rewire_one_root _ _ _ _ _ Hinv Hnew H1).
    apply IH; [by eapply rewire_one_inv| |done].
    by rewrite (rewire_one_vertices _ _ _ _ _ _ H1).
Qed.

Lemma visited_root s :
  visited self collision_free random_state s -> cost s !! 0%nat = Some 0.
Proof.
  assert (Hloop : forall k s path,
    loop self collision_free random_state k = Some (s, path) ->
    cost s !! 0%nat = Some 0).
  { induction k as [|k IH]; intros s0 path H.
    - injection H as <- _. simpl. by rewrite lookup_singleton_eq.
    - apply loop_succ in H as ([s1 p1] & H1 & Hit).
      pose proof (loop_inv _ _ _ _ _ _ H1) as Hinv.
      destruct (iteration_cases _ _ _ _ _ Hinv Hit)
        as (nq & ni & _ & Hni & [(_ & -> & _)|(_ & Hext & _ & _ & _)]); [by eapply IH|].
      unfold extend in Hext.
      destruct (choose_parent _ _ s1 nq ni _) as [[[nbrs mc] p]|] eqn:Hch; simpl in Hext; [|done].
      destruct (choose_parent_spec _ _ _ _ _ _ _ _ _ Hni Hch) as (_ & cp & qp & Hcp & Hqp & ->).
      set (new_q := new_state self nq (random_state k)) in *.
      change (rewire collision_free (insert_vertex s1 new_q (cp + distance qp new_q) p).1
                nbrs new_q (insert_vertex s1 new_q (cp + distance qp new_q) p).2 = Some s0) in Hext.
      pose proof (insert_vertex_inv s1 new_q _ cp qp p Hinv Hcp Hqp (Rle_refl _)) as Hinv1.
      rewrite (rewire_root _ _ _ _ _ Hinv1 (insert_vertex_new _ _ _ _) Hext).
      simpl. rewrite length_app. simpl.
      pose proof (inv_len s1 Hinv).
      rewrite lookup_insert_ne by lia. by eapply IH. }
  intros [k s0 path H|k s0 path nq ni nbrs mc p j s' H Hnn new_q Hok Hch Hrw].
  - by eapply Hloop.
  - pose proof (loop_inv _ _ _ _ _ _ H) as Hinv.
    apply nearest_neighbor_Some in Hnn.
    destruct (choose_parent_spec _ _ _ _ _ _ _ _ _ Hnn Hch) as (_ & cp & qp & Hcp & Hqp & ->).
    pose proof (insert_vertex_inv s0 new_q _ cp qp p Hinv Hcp Hqp (Rle_refl _)) as Hinv1.
    rewrite (rewire_root _ _ _ _ _ Hinv1 (insert_vertex_new _ _ _ _) Hrw).
    simpl. rewrite length_app. simpl.
    pose proof (inv_len s0 Hinv).
    rewrite lookup_insert_ne by lia. by eapply Hloop.
Qed.

(** ** Costs never go up *)

Lemma cost_le_refl s : cost_le s s.
Proof. intros v c Hc. exists c. split; [done|lra]. Qed.

Lemma cost_le_trans s1 s2 s3 : cost_le s1 s2 -> cost_le s2 s3 -> cost_le s1 s3.
Proof.
  intros H12 H23 v c Hc. destruct (H12 _ _ Hc) as (c2 & Hc2 & ?).
  destruct (H23 _ _ Hc2) as (c3 & Hc3 & ?). exists c3. split; [done|lra].
Qed.

Lemma rewire_one_cost_le s i new_q new_idx s' :
  rewire_one collision_free s i new_q new_idx = Some s' -> cost_le s s'.
Proof.
  intros H. destruct (rewire_one_spec _ _ _ _ _ _ H)
    as [->|(v & cn & ci & k & Hv & _ & Hcn & Hci & Hlt & Hk & ->)]; [apply cost_le_refl|].
  intros x c Hc. simpl. destruct (decide (x = i)) as [->|Hx].
  - rewrite lookup_insert_eq. rewrite Hci in Hc. injection Hc as <-.
    eexists. split; [done|lra].
  - rewrite lookup_insert_ne by done. exists c. split; [done|lra].
Qed.

Lemma rewire_cost_le s nbrs new_q new_idx s' :
  rewire collision_free s nbrs new_q new_idx = Some s' -> cost_le s s'.
Proof.
  revert s. induction nbrs as [|i nbrs IH]; intros s H; simpl in H.
  - injection H as <-. apply cost_le_refl.
  - destruct (rewire_one _ s i new_q new_idx) as [s1|] eqn:H1; simpl in H; [|done].
    eapply cost_le_trans; [by eapply rewire_one_cost_le|by apply IH].
Qed.

Lemma extend_cost_le s nq ni new_q s' :
  planner_inv s ->
  extend self collision_free s nq ni new_q = Some s' -> cost_le s s'.
Proof.
  intros Hinv Hext. unfold extend in Hext.
  destruct (choose_parent _ _ s nq ni _) as [[[nbrs mc] p]|] eqn:Hch; simpl in Hext; [|done].
  eapply cost_le_trans; [|by eapply rewire_cost_le].
  intros v c Hc. simpl. rewrite length_app. simpl.
  assert (v < length (vertices (T s)))%nat by (apply (inv_dom s Hinv); eauto).
  rewrite lookup_insert_ne by lia. exists c. split; [done|lra].
Qed.

Lemma loop_cost_le j k s path s' path' :
  (j <= k)%nat ->
  loop self collision_free random_state j = Some (s, path) ->
  loop self collision_free random_state k = Some (s', path') ->
  cost_le s s'.
Proof.
  intros Hjk Hj. revert s' path'. induction Hjk as [|k Hjk IH]; intros s' path' Hk.
  - rewrite Hj in Hk. injection Hk as <- _. apply cost_le_refl.
  - apply loop_succ in Hk as ([s1 p1] & H1 & Hit).
    eapply cost_le_trans; [by eapply IH|].
    destruct (iteration_cases _ _ _ _ _ (loop_inv _ _ _ _ _ _ H1) Hit)
      as (nq & ni & _ & _ & [(_ & -> & _)|(_ & Hext & _)]); [apply cost_le_refl|].
    eapply extend_cost_le; [by eapply loop_inv|done].
Qed.

End Run.

(** ** The example runs, evaluated *)

Open Scope R_scope.

Lemma distance_pair a1 a2 b1 b2 :
  distance [a1; a2] [b1; b2] =
  sqrt ((b1 - a1) * (b1 - a1) + (b2 - a2) * (b2 - a2)).
Proof. unfold distance, norm, vec_sub. simpl. f_equal. lra. Qed.

Lemma distance_pair_eq a1 a2 b1 b2 c :
  0 <= c -> (b1 - a1) * (b1 - a1) + (b2 - a2) * (b2 - a2) = c * c ->
  distance [a1; a2] [b1; b2] = c /\ distance [b1; b2] [a1; a2] = c.
Proof.
  intros Hc Hx. rewrite (distance_sym [b1; b2]). rewrite distance_pair, Hx.
  by rewrite sqrt_square.
Qed.

Lemma sqrt_above c x : 0 <= c -> c * c < x -> c < sqrt x.
Proof.
  intros Hc Hx. rewrite <- (sqrt_square c) at 1 by done.
  pose proof (sq_nonneg c). apply sqrt_lt_1; [done|lra|done].
Qed.

Lemma sqrt_below c x : 0 <= c -> 0 <= x -> x < c * c -> sqrt x < c.
Proof.
  intros Hc H0 Hx. rewrite <- (sqrt_square c) by done.
  apply sqrt_lt_1; [done|apply sq_nonneg|done].
Qed.

Lemma distance_pair_bounds a1 a2 b1 b2 lo hi :
  0 <= lo -> 0 <= hi ->
  lo * lo < (b1 - a1) * (b1 - a1) + (b2 - a2) * (b2 - a2) < hi * hi ->
  (lo < distance [a1; a2] [b1; b2] < hi) /\
  (lo < distance [b1; b2] [a1; a2] < hi).
Proof.
  intros Hlo Hhi [H1 H2]. rewrite (distance_sym [b1; b2]). rewrite distance_pair.
  pose proof (sq_nonneg lo).
  assert (lo < sqrt ((b1 - a1) * (b1 - a1) + (b2 - a2) * (b2 - a2)) < hi); [|done].
  split; [apply sqrt_above; done|apply sqrt_below; (done || lra)].
Qed.

(** For two joints and [gamma >= 4 delta] the radius [r] stays above
    [delta] up to 7 vertices: the search radius is [delta]. *)
Lemma search_radius_plane (self : Planner) n :
  dimension self = 2%nat -> (1 <= n <= 7)%nat ->
  0 <= delta_dis self -> 4 * delta_dis self <= gamma_RRTs self ->
  search_radius self n = delta_dis self.
Proof.
  intros Hdim Hn Hdelta Hgamma. unfold search_radius. rewrite Hdim.
  set (c := INR (n + 1)).
  assert (Hc : 2 <= c <= 8).
  { unfold c. split.
    - replace 2 with (INR 2) by (simpl; lra). apply le_INR. lia.
    - replace 8 with (INR 8) by (simpl; lra). apply le_INR. lia. }
  assert (Hln : / 2 < ln c).
  { eapply Rlt_le_trans; [apply ln_lt_2|].
    destruct (Req_dec_T c 2) as [->|Hne]; [lra|].
    apply Rlt_le, ln_increasing; lra. }
  assert (Hx : / 16 <= ln c / c).
  { assert (0 < / c) by (apply Rinv_0_lt_compat; lra).
    assert (/ 8 <= / c) by (apply Rinv_le_contravar; lra).
    unfold Rdiv. nra. }
  unfold float_pow. destruct (Req_dec_T (ln c / c) 0) as [H0|_]; [lra|].
  replace (1 / INR 2) with (/ 2) by (simpl; lra).
  rewrite Rpower_sqrt by lra.
  assert (/ 4 <= sqrt (ln c / c)).
  { rewrite <- (sqrt_square (/ 4)) by lra. apply sqrt_le_1; lra. }
  apply Rmin_right. nra.
Qed.

Ltac rcmp :=
  repeat first
    [ rewrite (proj2 (Rltb_true _ _)) by lra
    | rewrite (proj2 (Rltb_false _ _)) by lra
    | rewrite (proj2 (Rleb_true _ _)) by lra
    | rewrite (proj2 (Rleb_false _ _)) by lra ].

Ltac map_lookup :=
  repeat first
    [ rewrite lookup_insert_eq
    | rewrite lookup_insert_ne by lia
    | rewrite lookup_singleton_eq ].

Lemma demo_radius n : (1 <= n <= 7)%nat -> search_radius demo_planner n = 5.
Proof. intros. apply search_radius_plane; simpl; (done || lra). Qed.

Ltac eval_step :=
  first
  [ done
  | apply new_state_reach; simpl; (done || lra)
  | progress (unfold _q_in_limits; simpl; rcmp); done
  | unfold choose_parent, find_near_neighbor, get_new_cost; simpl;
    rewrite ?demo_radius by lia; rcmp; simpl; map_lookup; simpl;
    unfold get_new_cost; simpl;
    repeat (progress (map_lookup; simpl; rcmp; simpl));
    repeat f_equal; lra
  | unfold insert_vertex, rewire, rewire_one, get_new_cost; simpl;
    repeat (progress (map_lookup; simpl; rcmp; simpl));
    unfold set_edge_parent; simpl; repeat f_equal; lra ].

Lemma demo_step0 rs path :
  rs 0%nat = [0; 5] ->
  iteration demo_planner demo_collision_free rs 0 (demo_state0, path) =
  Some (demo_state1, Some demo_path).
Proof.
  intros Hrs.
  destruct (distance_pair_eq 0 0 0 5 5) as [D1 D2]; [lra|lra|].
  destruct (distance_pair_eq 0 5 0 5 0) as [D3 _]; [lra|lra|].
  erewrite (iteration_accept _ _ _ 0 demo_state0 path [0; 0] 0 [0; 5] [0%nat] 5 0 demo_state1);
    rewrite ?Hrs.
  - unfold reach_to_goal. simpl. rcmp. done.
  - done.
  - eval_step.
  - eval_step.
  - eval_step.
  - eval_step.
  - eval_step.
Qed.

Lemma demo_step1 rs path :
  rs 1%nat = [3; 5] ->
  iteration demo_planner demo_collision_free rs 1 (demo_state1, path) =
  Some (demo_state2, path).
Proof.
  intros Hrs.
  destruct (distance_pair_bounds 0 0 3 5 5 6) as [D1 D2]; [lra|lra|lra|].
  destruct (distance_pair_eq 0 5 3 5 3) as [D3 D4]; [lra|lra|].
  erewrite (iteration_accept _ _ _ 1 demo_state1 path [0; 5] 1 [3; 5] [1%nat] 8 1 demo_state2);
    rewrite ?Hrs.
  - unfold reach_to_goal. simpl. rcmp. done.
  - unfold nearest_neighbor. simpl. rcmp. done.
  - eval_step.
  - eval_step.
  - eval_step.
  - eval_step.
  - eval_step.
Qed.

Lemma demo_step2 rs path :
  rs 2%nat = [8; 5] ->
  iteration demo_planner demo_collision_free rs 2 (demo_state2, path) =
  Some (demo_state3, path).
Proof.
  intros Hrs.
  destruct (distance_pair_bounds 0 0 8 5 9 10) as [D1 D2]; [lra|lra|lra|].
  destruct (distance_pair_eq 0 5 8 5 8) as [D3 D4]; [lra|lra|].
  destruct (distance_pair_eq 3 5 8 5 5) as [D5 D6]; [lra|lra|].
  erewrite (iteration_accept _ _ _ 2 demo_state2 path [3; 5] 2 [8; 5] [2%nat] 13 2 demo_state3);
    rewrite ?Hrs.
  - unfold reach_to_goal. simpl. rcmp. done.
  - unfold nearest_neighbor. simpl. rcmp. done.
  - eval_step.
  - eval_step.
  - eval_step.
  - eval_step.
  - eval_step.
Qed.

Lemma demo_step3 rs path :
  rs 3%nat = [3; 4] ->
  iteration demo_planner demo_collision_free rs 3 (demo_state3, path) =
  Some (demo_state4, path).
Proof.
  intros Hrs.
  destruct (distance_pair_eq 0 0 3 4 5) as [D1 D2]; [lra|lra|].
  destruct (distance_pair_bounds 0 5 3 4 3 4) as [D3 D4]; [lra|lra|lra|].
  destruct (distance_pair_eq 3 5 3 4 1) as [D5 D6]; [lra|lra|].
  destruct (distance_pair_bounds 8 5 3 4 5 6) as [D7 D8]; [lra|lra|lra|].
  erewrite (iteration_accept _ _ _ 3 demo_state3 path [3; 5] 2 [3; 4]
              [0; 1; 2]%nat 5 0 demo_state4);
    rewrite ?Hrs.
  - unfold reach_to_goal. simpl. rcmp. done.
  - unfold nearest_neighbor. simpl. rcmp. done.
  - eval_step.
  - eval_step.
  - eval_step.
  - eval_step.
  - eval_step.
Qed.

Lemma loop_step (self : Planner) cf rs k sp sp' :
  loop self cf rs k = Some sp -> iteration self cf rs k sp = Some sp' ->
  loop self cf rs (S k) = Some sp'.
Proof. intros H1 H2. simpl. rewrite H1. done. Qed.

Lemma demo_loop1 rs :
  rs 0%nat = [0; 5] ->
  loop demo_planner demo_collision_free rs 1 = Some (demo_state1, Some demo_path).
Proof. intros. eapply loop_step; [done|]. by apply demo_step0. Qed.

Lemma demo_loop4 :
  loop demo_planner demo_collision_free demo_samples 4 =
  Some (demo_state4, Some demo_path).
Proof.
  eapply loop_step; [|by apply demo_step3].
  eapply loop_step; [|by apply demo_step2].
  eapply loop_step; [|by apply demo_step1].
  by apply demo_loop1.
Qed.

Lemma steer_step1 rs path :
  rs 1%nat = [0; 5] ->
  iteration demo_planner demo_collision_free rs 1 (demo_state1, path) =
  Some (steer_state2, Some [[0; 0]; [0; 5]; [0; 5]; [0; 5]]).
Proof.
  intros Hrs.
  destruct (distance_pair_eq 0 0 0 5 5) as [D1 D2]; [lra|lra|].
  destruct (distance_pair_eq 0 5 0 5 0) as [D3 _]; [lra|lra|].
  erewrite (iteration_accept _ _ _ 1 demo_state1 path [0; 5] 1 [0; 5]
              [0; 1]%nat 5 1 steer_state2);
    rewrite ?Hrs.
  - unfold reach_to_goal. simpl. rcmp. done.
  - unfold nearest_neighbor. simpl. rcmp. done.
  - eval_step.
  - eval_step.
  - eval_step.
  - eval_step.
  - eval_step.
Qed.

Lemma steer_loop2 :
  loop demo_planner demo_collision_free steer_samples 2 =
  Some (steer_state2, Some [[0; 0]; [0; 5]; [0; 5]; [0; 5]]).
Proof.
  eapply loop_step; [|by apply steer_step1].
  by apply demo_loop1.
Qed.

(** The samples of the example runs are values [random_state] can return:
    points within the joint limits, or the goal. *)
Lemma demo_samples_in_limits k :
  _q_in_limits demo_planner (demo_samples k) = true.
Proof.
  destruct k as [|[|[|k]]]; unfold _q_in_limits; simpl; rcmp; done.
Qed.

Lemma steer_samples_goal k : steer_samples k = goal_q demo_planner.
Proof. done. Qed.

Close Scope R_scope.

(** * Properties of the planner *)

Section TreeProperties.
Local Open Scope R_scope.

Variable self : Planner.
Variable collision_free : Config -> bool.
Variable random_state : nat -> Config.

(** C1 (tree validity).  At every point [generate_path] goes through (the
    start of each iteration, the state after an insertion, the state after
    every pass of the loop of [rewire], the final state) the tree has one
    edge per vertex other than vertex 0, vertex 0 has no parent, rewiring
    included, and from every vertex the parent links lead to vertex 0 in at
    most [|vertices|] steps: rewiring creates no cycle. *)
Theorem tree_validity (s : PState) :
  visited self collision_free random_state s -> valid_tree (T s).
Proof. intros Hv. apply planner_inv_valid. by eapply visited_inv. Qed.

Lemma root_chain_hd t v p l :
  parent t v = Some p -> root_chain t p l -> hd 0%nat l = p.
Proof. intros _ Hc. by destruct Hc. Qed.

Lemma chain_length_le (s : PState) v l cv :
  planner_inv s -> cost s !! 0%nat = Some 0 ->
  root_chain (T s) v l -> cost s !! v = Some cv ->
  chain_length (T s) l <= cv.
Proof.
  intros Hinv H0 Hc. revert cv. induction Hc as [|v p l Hv Hp Hc IH]; intros cv Hcv.
  - rewrite H0 in Hcv. injection Hcv as <-. simpl. lra.
  - destruct (parent_cost _ _ _ Hinv Hp)
      as (_ & _ & _ & _ & cp & cv' & qp & qv & H1 & H2 & H3 & H4 & H5).
    rewrite Hcv in H2. injection H2 as <-.
    cbn [chain_length]. rewrite (root_chain_hd _ _ _ _ Hp Hc), H3, H4. simpl.
    specialize (IH cp H1). lra.
Qed.

(** C2, as amended.  At every point of [generate_path] a vertex costs at
    least its parent's cost plus the length of the link, hence at least the
    length of its path from the root along the current parent links.  The
    two are equal for a vertex when it is inserted and for a vertex when a
    pass of [rewire] changes its parent; the costs of the other vertices,
    its descendants included, are left as they are. *)
Theorem cost_upper_bound (s : PState) :
  visited self collision_free random_state s ->
  cost_bounds_links s /\
  (forall v l cv, root_chain (T s) v l -> cost s !! v = Some cv ->
     chain_length (T s) l <= cv) /\
  (forall nq ni new_q nbrs mc p,
     vertices (T s) !! ni = Some nq ->
     choose_parent self collision_free s nq ni new_q = Some (nbrs, mc, p) ->
     exists cp qp, cost s !! p = Some cp /\ vertices (T s) !! p = Some qp /\
       mc = cp + distance qp new_q) /\
  (forall i new_q new_idx s',
     vertices (T s) !! new_idx = Some new_q ->
     rewire_one collision_free s i new_q new_idx = Some s' -> s' <> s ->
     exists cn qi,
       parent (T s') i = Some new_idx /\
       cost s' !! new_idx = Some cn /\ vertices (T s') !! i = Some qi /\
       cost s' !! i = Some (cn + distance new_q qi) /\
       forall v, v <> i -> cost s' !! v = cost s !! v).
Proof.
  intros Hvis. pose proof (visited_inv _ _ _ _ Hvis) as Hinv.
  pose proof (visited_root _ _ _ _ Hvis) as H0.
  split; [|split; [|split]].
  - intros v p Hp.
    destruct (parent_cost _ _ _ Hinv Hp)
      as (_ & _ & _ & _ & cp & cv & qp & qv & H1 & H2 & H3 & H4 & H5).
    by exists cv, cp, qv, qp.
  - intros v l cv. by apply chain_length_le.
  - intros nq ni new_q nbrs mc p Hni Hch.
    by destruct (choose_parent_spec _ _ _ _ _ _ _ _ _ Hni Hch) as (_ & H).
  - intros i new_q new_idx s' Hnew Hrw Hne.
    pose proof (rewire_one_inv _ _ _ _ _ _ Hinv Hnew Hrw) as Hinv'.
    destruct (rewire_one_spec _ _ _ _ _ _ Hrw)
      as [->|(v & cn & ci & k & Hv & _ & Hcn & Hci & Hlt & Hk & ->)]; [done|].
    pose proof (distance_nonneg new_q v).
    assert (new_idx <> i) by (intros ->; rewrite Hcn in Hci; injection Hci as ->; lra).
    assert (i <> 0%nat).
    { intros ->. rewrite H0 in Hci. injection Hci as <-.
      destruct (inv_reach s Hinv new_idx) as [l Hl]; [by eapply lookup_lt_Some|].
      pose proof (root_cost_le _ _ _ _ _ Hinv Hl Hcn H0). lra. }
    pose proof (inv_len s Hinv). pose proof (lookup_lt_Some _ _ _ Hv).
    rewrite py_index_pred in Hk by lia. injection Hk as <-.
    exists cn, v. simpl. split; [|split; [|split; [|split]]].
    + rewrite parent_lookup by (intros k e He; by apply (inv_edges _ Hinv')).
      rewrite decide_False by done. simpl. rewrite list_lookup_alter_eq.
      destruct (lookup_lt_is_Some_2 (edges (T s)) (i - 1)) as [e ->]; [lia|]. done.
    + by rewrite lookup_insert_ne.
    + done.
    + by rewrite lookup_insert_eq.
    + intros x Hx. by rewrite lookup_insert_ne.
Qed.

(** C8 (costs never go up).  A pass of the loop of [rewire] leaves the
    state as it is or, for a collision-free neighbour whose recorded cost is
    strictly above the cost through the new vertex, lowers that one cost and
    sets that one parent link; and between any two iterations of
    [generate_path] no vertex's recorded cost increases. *)
Theorem cost_never_increases (j k : nat) (s s' : PState) (path path' : option (list Config)) :
  (j <= k)%nat ->
  loop self collision_free random_state j = Some (s, path) ->
  loop self collision_free random_state k = Some (s', path') ->
  cost_le s s' /\
  forall s1 i new_q new_idx s2,
    rewire_one collision_free s1 i new_q new_idx = Some s2 ->
    cost_le s1 s2 /\
    (s2 = s1 \/
     exists v cn ci e,
       vertices (T s1) !! i = Some v /\ collision_free v = true /\
       cost s1 !! new_idx = Some cn /\ cost s1 !! i = Some ci /\
       cn + distance new_q v < ci /\
       py_index (length (edges (T s1))) (Z.of_nat i - 1) = Some e /\
       cost s2 = <[i := cn + distance new_q v]> (cost s1) /\
       T s2 = set_edge_parent e new_idx (T s1)).
Proof.
  intros Hjk Hj Hk. split; [by eapply loop_cost_le|].
  intros s1 i new_q new_idx s2 Hrw. split; [by eapply rewire_one_cost_le|].
  destruct (rewire_one_spec _ _ _ _ _ _ Hrw)
    as [->|(v & cn & ci & e & Hv & Hcf & Hcn & Hci & Hlt & He & ->)]; [by left|].
  right. by exists v, cn, ci, e.
Qed.

End TreeProperties.

Section TreeExamples.
Local Open Scope R_scope.

Lemma tree_validity_witness : valid_tree (T demo_state4).
Proof.
  apply (tree_validity demo_planner demo_collision_free demo_samples).
  eapply visited_loop. apply demo_loop4.
Defined.

(** C2 as stated fails: after the four iterations of the example run
    vertex 2 has been rewired through vertex 4 and costs 6, its child,
    vertex 3, still costs 13, and the link between them has length 5. *)
Lemma cost_consistency_counterexample :
  generate_path demo_planner demo_collision_free demo_samples =
    Some (demo_state4, Some demo_path) /\
  ~ cost_consistent demo_state4.
Proof.
  split; [apply demo_loop4|].
  intros H. specialize (H 3%nat 2%nat 13 6 [8; 5] [3; 5]).
  destruct (distance_pair_eq 3 5 8 5 5) as [D _]; [lra|lra|].
  rewrite D in H.
  assert (13 = 6 + 5); [|lra].
  apply H; try done; unfold demo_state4; simpl; map_lookup; done.
Qed.

Lemma cost_upper_bound_witness :
  cost_bounds_links demo_state4 /\
  (forall v l cv, root_chain (T demo_state4) v l -> cost demo_state4 !! v = Some cv ->
     chain_length (T demo_state4) l <= cv) /\
  (forall nq ni new_q nbrs mc p,
     vertices (T demo_state4) !! ni = Some nq ->
     choose_parent demo_planner demo_collision_free demo_state4 nq ni new_q
       = Some (nbrs, mc, p) ->
     exists cp qp, cost demo_state4 !! p = Some cp /\
       vertices (T demo_state4) !! p = Some qp /\
       mc = cp + distance qp new_q) /\
  (forall i new_q new_idx s',
     vertices (T demo_state4) !! new_idx = Some new_q ->
     rewire_one demo_collision_free demo_state4 i new_q new_idx = Some s' ->
     s' <> demo_state4 ->
     exists cn qi,
       parent (T s') i = Some new_idx /\
       cost s' !! new_idx = Some cn /\ vertices (T s') !! i = Some qi /\
       cost s' !! i = Some (cn + distance new_q qi) /\
       forall v, v <> i -> cost s' !! v = cost demo_state4 !! v).
Proof.
  apply (cost_upper_bound demo_planner demo_collision_free demo_samples).
  eapply visited_loop. apply demo_loop4.
Defined.

Lemma cost_never_increases_witness :
  cost_le demo_state1 demo_state4 /\
  forall s1 i new_q new_idx s2,
    rewire_one demo_collision_free s1 i new_q new_idx = Some s2 ->
    cost_le s1 s2 /\
    (s2 = s1 \/
     exists v cn ci e,
       vertices (T s1) !! i = Some v /\ demo_collision_free v = true /\
       cost s1 !! new_idx = Some cn /\ cost s1 !! i = Some ci /\
       cn + distance new_q v < ci /\
       py_index (length (edges (T s1))) (Z.of_nat i - 1) = Some e /\
       cost s2 = <[i := cn + distance new_q v]> (cost s1) /\
       T s2 = set_edge_parent e new_idx (T s1)).
Proof.
  apply (cost_never_increases demo_planner demo_collision_free demo_samples
           1 4 demo_state1 demo_state4 (Some demo_path) (Some demo_path)).
  - lia.
  - by apply demo_loop1.
  - apply demo_loop4.
Defined.

End TreeExamples.

Section IterationProperties.
Local Open Scope R_scope.

Variable self : Planner.
Variable collision_free : Config -> bool.
Variable random_state : nat -> Config.

Lemma rewire_vertices s nbrs new_q new_idx s' :
  rewire collision_free s nbrs new_q new_idx = Some s' ->
  vertices (T s') = vertices (T s).
Proof.
  revert s. induction nbrs as [|i nbrs IH]; intros s H; simpl in H.
  - by injection H as <-.
  - destruct (rewire_one _ s i new_q new_idx) as [s1|] eqn:H1; simpl in H; [|done].
    rewrite (IH _ H). by eapply rewire_one_vertices.
Qed.

Lemma extend_vertices s nq ni new_q s' :
  extend self collision_free s nq ni new_q = Some s' ->
  vertices (T s') = vertices (T s) ++ [new_q].
Proof.
  unfold extend. intros H.
  destruct (choose_parent _ _ s nq ni new_q) as [[[nbrs mc] p]|]; simpl in H; [|done].
  by rewrite (rewire_vertices _ _ _ _ _ H).
Qed.

(** C3, as amended.  When the sample equals the nearest vertex [new_state]
    returns that vertex's configuration and the iteration goes on with it as
    its candidate: it is appended to the tree if it passes the collision and
    limit checks.  Otherwise, for a step size [delta >= 0], the new
    configuration is the point of the segment from the nearest vertex to
    the sample at distance [min(delta, distance)] from the nearest vertex:
    it neither overshoots the sample nor exceeds [delta]. *)
Theorem steering (nearest_q random_q : Config) :
  length nearest_q = length random_q -> 0 <= delta_dis self ->
  (nearest_q = random_q ->
     new_state self nearest_q random_q = nearest_q /\
     forall k s path s' path' ni,
       random_state k = random_q ->
       nearest_neighbor (random_state k) (T s) = Some (nearest_q, ni) ->
       iteration self collision_free random_state k (s, path) = Some (s', path') ->
       if collision_free nearest_q && _q_in_limits self nearest_q
       then vertices (T s') = vertices (T s) ++ [nearest_q]
       else s' = s) /\
  (nearest_q <> random_q ->
     let d := distance nearest_q random_q in
     let new_q := new_state self nearest_q random_q in
     exists t, 0 <= t <= 1 /\
       new_q = zip_with (fun n r => n + t * (r - n)) nearest_q random_q /\
       distance nearest_q new_q = Rmin (delta_dis self) d /\
       distance nearest_q new_q <= d /\
       distance nearest_q new_q <= delta_dis self).
Proof.
  intros Hlen Hdelta. split.
  - intros Heq.
    assert (Hsame : new_state self nearest_q random_q = nearest_q).
    { apply new_state_same. by apply np_equal_all_eq. }
    split; [done|].
    intros k s path s' path' ni Hk Hnn Hit. unfold iteration in Hit.
    rewrite Hnn in Hit. simpl in Hit. rewrite Hk, Hsame in Hit.
    destruct (_ && _); [|by injection Hit as <- _].
    destruct (extend _ _ s nearest_q ni nearest_q) as [s1|] eqn:Hext; simpl in Hit; [|done].
    apply extend_vertices in Hext.
    destruct (reach_to_goal _ _).
    + destruct (find_path _ _); simpl in Hit; [|done]. by injection Hit as <- _.
    + by injection Hit as <- _.
  - intros Hne d new_q.
    destruct (new_state_segment self nearest_q random_q Hlen Hne Hdelta)
      as (Hd & Ht & Hnew & Hdist).
    eexists. split; [exact Ht|]. split; [exact Hnew|]. split; [exact Hdist|].
    unfold new_q. rewrite Hdist. split; [apply Rmin_r|apply Rmin_l].
Qed.

(** C6 (a rejected candidate changes nothing).  When the steered candidate
    fails the collision check or the joint-limit check, the iteration ends
    with the vertex sequence, the edge list, the cost map and the recorded
    path exactly as they were. *)
Theorem rejected_candidate_no_mutation k s path nearest_q nearest_idx :
  nearest_neighbor (random_state k) (T s) = Some (nearest_q, nearest_idx) ->
  collision_free (new_state self nearest_q (random_state k)) = false \/
  _q_in_limits self (new_state self nearest_q (random_state k)) = false ->
  iteration self collision_free random_state k (s, path) = Some (s, path).
Proof.
  intros Hnn Hrej. eapply iteration_reject; [done|].
  apply andb_false_iff. done.
Qed.



(** The recorded path is only set when the inserted vertex passes the goal
    check. *)
Lemma loop_path_goal k s p :
  loop self collision_free random_state k = Some (s, Some p) ->
  exists i q, (1 <= i)%nat /\ vertices (T s) !! i = Some q /\
    reach_to_goal self q = true.
Proof.
  revert s p. induction k as [|k IH]; intros s p H; [done|].
  apply loop_succ in H as ([s0 p0] & H0 & Hit).
  pose proof (loop_inv _ _ _ _ _ _ H0) as Hinv.
  destruct (iteration_cases _ _ _ _ _ _ _ _ Hinv Hit)
    as (nq & ni & _ & _ & [(_ & -> & <-)|(_ & _ & _ & Hv & [[_ <-]|[Hgoal _]])]).
  - by eapply IH.
  - destruct (IH _ _ H0) as (i & q & Hi & Hq & Hg).
    exists i, q. split; [done|]. split; [|done].
    rewrite Hv. rewrite lookup_app_l; [done|]. by eapply lookup_lt_Some.
  - exists (length (vertices (T s0))), (new_state self nq (random_state k)).
    pose proof (inv_len s0 Hinv). split; [lia|]. split; [|done].
    rewrite Hv. rewrite lookup_app_r by lia. by replace (_ - _)%nat with 0%nat by lia.
Qed.

(** With samples of the dimension of the start every vertex has that
    dimension: each numpy operation of the run is between arrays of one
    length. *)
Lemma loop_vertex_length k s path :
  (forall n, length (random_state n) = length (cur_q self)) ->
  loop self collision_free random_state k = Some (s, path) ->
  forall i q, vertices (T s) !! i = Some q -> length q = length (cur_q self).
Proof.
  intros Hsample. revert s path. induction k as [|k IH]; intros s path H i q Hq.
  - injection H as <- _. simpl in Hq. destruct i; simpl in Hq; [|done].
    by injection Hq as <-.
  - apply loop_succ in H as ([s0 p0] & H0 & Hit).
    pose proof (loop_inv _ _ _ _ _ _ H0) as Hinv.
    destruct (iteration_cases _ _ _ _ _ _ _ _ Hinv Hit)
      as (nq & ni & _ & Hni & [(_ & -> & _)|(_ & _ & _ & Hv & _)]).
    + by eapply IH.
    + rewrite Hv in Hq. apply lookup_app_Some in Hq as [Hq|[Hge Hq]].
      * by eapply IH.
      * destruct (i - length (vertices (T s0)))%nat; simpl in Hq; [|done].
        injection Hq as <-. pose proof (IH _ _ H0 _ _ Hni) as Hnq.
        rewrite new_state_length; [done|]. by rewrite Hsample.
Qed.

(** C10 (no path).  For a planner whose start, goal, joint limits and
    samples all have one length and whose dimension is not 0,
    [generate_path] returns; its tree has at most [max_iter + 1] vertices,
    all of that length; when no inserted vertex passes the goal check it
    returns the no-path value; and with [max_iter = 1], a step size
    [delta >= 0] and start and goal more than [delta + 0.2] apart, it
    returns the no-path value. *)
Theorem no_path_sentinel :
  dimension self <> 0%nat ->
  length (goal_q self) = length (cur_q self) ->
  length (q_limits_lower self) = length (cur_q self) ->
  length (q_limits_upper self) = length (cur_q self) ->
  (forall k, length (random_state k) = length (cur_q self)) ->
  exists s path,
    generate_path self collision_free random_state = Some (s, path) /\
    (length (vertices (T s)) <= max_iter self + 1)%nat /\
    (forall i q, vertices (T s) !! i = Some q -> length q = length (cur_q self)) /\
    ((forall i q, (1 <= i)%nat -> vertices (T s) !! i = Some q ->
        reach_to_goal self q = false) -> path = None) /\
    (max_iter self = 1%nat -> 0 <= delta_dis self ->
     delta_dis self + 2 / 10 < distance (cur_q self) (goal_q self) ->
     (length (vertices (T s)) <= 2)%nat /\ path = None).
Proof.
  intros Hdim Hglen Hlo Hup Hsample. unfold generate_path.
  destruct (loop_total self collision_free random_state (max_iter self) Hdim)
    as [[s path] Hloop].
  exists s, path. split; [done|].
  destruct (loop_vertices _ _ _ _ _ _ Hloop) as [_ Hlen].
  split; [done|]. split; [by eapply loop_vertex_length|]. split.
  - intros Hno. destruct path as [p|]; [|done].
    destruct (loop_path_goal _ _ _ Hloop) as (i & q & Hi & Hq & Hg).
    rewrite (Hno i q Hi Hq) in Hg. done.
  - intros Hmax Hdelta Hfar. rewrite Hmax in Hloop, Hlen.
    split; [lia|].
    destruct path as [p|]; [|done]. exfalso.
    apply loop_succ in Hloop as ([s0 p0] & H0 & Hit).
    injection H0 as <- <-.
    destruct (iteration_cases _ _ _ _ _ _ _ _ (init_state_inv self) Hit)
      as (nq & ni & Hnn & _ & [(_ & _ & ?)|(_ & _ & _ & _ & [[_ ?]|[Hgoal _]])]);
      [done|done|].
    assert (nq = cur_q self) as ->.
    { unfold nearest_neighbor in Hnn. simpl in Hnn. by injection Hnn as <- _. }
    apply Rleb_true in Hgoal.
    pose proof (new_state_step_le self (cur_q self) (random_state 0%nat)
                  (eq_sym (Hsample 0%nat)) Hdelta) as Hstep.
    pose proof (distance_triangle (cur_q self)
                  (new_state self (cur_q self) (random_state 0%nat)) (goal_q self)) as Htri.
    rewrite new_state_length in Htri by (by rewrite Hsample).
    specialize (Htri eq_refl (eq_sym Hglen)). lra.
Qed.

End IterationProperties.

Section IterationExamples.
Local Open Scope R_scope.

(** C3 as stated fails: in the second iteration of this run the sample is
    the goal, which the first iteration has put in the tree as vertex 1; it
    equals its nearest vertex, and the iteration still appends a vertex. *)
Lemma steer_skip_counterexample :
  loop demo_planner demo_collision_free steer_samples 1 =
    Some (demo_state1, Some demo_path) /\
  nearest_neighbor (steer_samples 1) (T demo_state1) = Some (steer_samples 1, 1%nat) /\
  loop demo_planner demo_collision_free steer_samples 2 =
    Some (steer_state2, Some [[0; 0]; [0; 5]; [0; 5]; [0; 5]]) /\
  length (vertices (T steer_state2)) = S (length (vertices (T demo_state1))).
Proof.
  split; [by apply demo_loop1|]. split; [|split; [apply steer_loop2|done]].
  destruct (distance_pair_eq 0 0 0 5 5) as [D1 D2]; [lra|lra|].
  destruct (distance_pair_eq 0 5 0 5 0) as [D3 _]; [lra|lra|].
  unfold nearest_neighbor, steer_samples. simpl. rcmp. done.
Qed.

Lemma steering_witness :
  ([0; 0] = [0; 5] ->
     new_state demo_planner [0; 0] [0; 5] = [0; 0] /\
     forall k s path s' path' ni,
       demo_samples k = [0; 5] ->
       nearest_neighbor (demo_samples k) (T s) = Some ([0; 0], ni) ->
       iteration demo_planner demo_collision_free demo_samples k (s, path)
         = Some (s', path') ->
       if demo_collision_free [0; 0] && _q_in_limits demo_planner [0; 0]
       then vertices (T s') = vertices (T s) ++ [[0; 0]]
       else s' = s) /\
  ([0; 0] <> [0; 5] ->
     let d := distance [0; 0] [0; 5] in
     let new_q := new_state demo_planner [0; 0] [0; 5] in
     exists t, 0 <= t <= 1 /\
       new_q = zip_with (fun n r => n + t * (r - n)) [0; 0] [0; 5] /\
       distance [0; 0] new_q = Rmin (delta_dis demo_planner) d /\
       distance [0; 0] new_q <= d /\
       distance [0; 0] new_q <= delta_dis demo_planner).
Proof.
  apply (steering demo_planner demo_collision_free demo_samples [0; 0] [0; 5]).
  - reflexivity.
  - simpl. lra.
Defined.

Lemma rejected_candidate_no_mutation_witness :
  iteration demo_planner blocked demo_samples 0 (demo_state0, None) =
  Some (demo_state0, None).
Proof.
  apply (rejected_candidate_no_mutation demo_planner blocked demo_samples
           0 demo_state0 None [0; 0] 0).
  - reflexivity.
  - left. reflexivity.
Defined.


Lemma no_path_sentinel_witness :
  exists s,
    generate_path far_planner demo_collision_free far_samples = Some (s, None) /\
    (length (vertices (T s)) <= 2)%nat /\
    (forall i q, vertices (T s) !! i = Some q -> length q = 2%nat).
Proof.
  destruct (no_path_sentinel far_planner demo_collision_free far_samples)
    as (s & path & Hgen & _ & Hdim & _ & Hfar).
  - simpl. lia.
  - reflexivity.
  - reflexivity.
  - reflexivity.
  - intros k. reflexivity.
  - destruct Hfar as [Hlen ->].
    + reflexivity.
    + simpl. lra.
    + destruct (distance_pair_eq 0 0 100 0 100) as [D _]; [lra|lra|].
      simpl. rewrite D. lra.
    + exists s. done.
Defined.

End IterationExamples.

Section SetupProperties.
Local Open Scope R_scope.

Variable robot_joint_limits : option string -> Config * Config.

Lemma Reqb_refl x : Reqb x x = true.
Proof. by apply Reqb_true. Qed.

Lemma Reqb_neq x y : x <> y -> Reqb x y = false.
Proof. unfold Reqb. by destruct (Req_dec_T x y). Qed.

(** On arrays the check raises exactly when no entry of the start is 0. *)
Lemma check_q_data_arrays (xs gs : Config) :
  _check_q_data (NdArray xs) (NdArray gs) =
    if forallb (fun x => negb (Reqb x 0)) xs then inl NotFoundError else inr true.
Proof. unfold _check_q_data. simpl. by destruct (forallb _ xs). Qed.

(** C4 (validation of start and goal; the code does otherwise).  With both configurations supplied as
    well-formed arrays, a start [(0.5, 0.5)] without a zero entry makes
    setup raise NotFoundError; and with [goal_q = None] setup raises
    AttributeError, whatever the start. *)
Theorem setup_rejects_supplied_start init_report (obj : PlannerObj) (arm : option string) :
  setup_start_goal_joint robot_joint_limits init_report obj
    (NdArray [1 / 2; 1 / 2]) (NdArray [1; 1]) arm = (obj, Some NotFoundError) /\
  forall start,
    setup_start_goal_joint robot_joint_limits init_report obj start PyNone arm
      = (obj, Some AttributeError).
Proof.
  split.
  - unfold setup_start_goal_joint. simpl. rewrite check_q_data_arrays. simpl.
    rewrite Reqb_neq by lra. done.
  - intros start. unfold setup_start_goal_joint. simpl. done.
Qed.

(** A goal passed as a plain sequence never gets through setup. *)
Lemma setup_list_goal_raises init_report obj start gs arm :
  (setup_start_goal_joint robot_joint_limits init_report obj start (PyList gs) arm).2
  <> None.
Proof.
  unfold setup_start_goal_joint, _check_q_data. simpl.
  destruct (forallb _ gs); done.
Qed.

Lemma setup_success init_report obj start goal arm obj' xs gs :
  supplied start xs -> supplied goal gs ->
  setup_start_goal_joint robot_joint_limits init_report obj start goal arm = (obj', None) ->
  goal = NdArray gs /\ xs <> [] /\
  obj' = set_q_limits (robot_joint_limits arm)
           (set_dimension (length xs)
              (set_arm arm (set_cur_goal (NdArray xs) (NdArray gs) obj))).
Proof.
  intros Hs Hg H.
  destruct Hg as [->| ->].
  { exfalso. eapply setup_list_goal_raises. by rewrite H. }
  split; [done|].
  assert (Hcq : (if isinstance_ndarray start then start else np_array start) = NdArray xs)
    by (destruct Hs as [-> | ->]; done).
  unfold setup_start_goal_joint in H. simpl in H. rewrite Hcq in H.
  rewrite check_q_data_arrays in H.
  destruct (forallb _ xs) eqn:Hall; [done|].
  split; [by intros ->|].
  simpl in H. unfold _setup_collision_and_q_limit in H.
  destruct (_check_init_collision init_report); [done|].
  by injection H as <-.
Qed.

End SetupProperties.

Section PathProperties.
Local Open Scope R_scope.

Variable self : Planner.
Variable collision_free : Config -> bool.
Variable random_state : nat -> Config.

(** A recorded path is the one [find_path] extracted at the end of some
    iteration. *)
Lemma loop_path k s p :
  loop self collision_free random_state k = Some (s, Some p) ->
  exists j sj, (j <= k)%nat /\
    loop self collision_free random_state j = Some (sj, Some p) /\
    extracted self sj p.
Proof.
  revert s p. induction k as [|k IH]; intros s p H; [done|].
  pose proof H as Hk.
  apply loop_succ in H as ([s0 p0] & H0 & Hit).
  pose proof (loop_inv _ _ _ _ _ _ H0) as Hinv.
  destruct (iteration_cases _ _ _ _ _ _ _ _ Hinv Hit)
    as (nq & ni & _ & _ & [(_ & _ & <-)|(_ & _ & Hinv' & Hv & [[_ <-]|(_ & p' & [= <-] & Hp)])]).
  - destruct (IH _ _ H0) as (j & sj & ? & ? & ?). exists j, sj. split; [lia|done].
  - destruct (IH _ _ H0) as (j & sj & ? & ? & ?). exists j, sj. split; [lia|done].
  - exists (S k), s. split; [lia|]. split; [done|].
    destruct (find_path_spec self s Hinv') as (l & qs & Hl & Hqs & Hfp).
    { pose proof (inv_len s Hinv') as Hl. rewrite Hv, length_app in Hl. simpl in Hl.
      pose proof (inv_len s0 Hinv). lia. }
    rewrite Hfp in Hp. injection Hp as <-. by exists l, qs.
Qed.

Lemma extracted_ends s p :
  extracted self s p -> head p = Some (cur_q self) /\ last p = Some (goal_q self).
Proof.
  intros (l & qs & _ & _ & ->). split; [done|].
  rewrite app_comm_cons. by rewrite last_snoc.
Qed.

End PathProperties.

Section StartProperties.
Local Open Scope R_scope.

Variable robot_joint_limits : option string -> Config * Config.

(** C5 (the start is the root).  After a setup that did not raise, with
    start and goal supplied as arrays or plain sequences of one length and
    joint limits of that length, the planner holds the supplied start and
    goal; for samples of that length [generate_path] returns, vertex 0 of
    its tree is the supplied start, every vertex has the start's length,
    and a returned path is the one extracted at the end of some iteration:
    it begins with the start, follows the parent chain of the vertex
    inserted last from the root down, and ends with the goal. *)
Theorem start_is_root init_report (obj obj' : PlannerObj) (start goal : pyval)
    (arm : option string) (xs gs : Config) :
  supplied start xs -> supplied goal gs ->
  length gs = length xs ->
  length (robot_joint_limits arm).1 = length xs ->
  length (robot_joint_limits arm).2 = length xs ->
  setup_start_goal_joint robot_joint_limits init_report obj start goal arm = (obj', None) ->
  exists self,
    as_planner obj' = Some self /\ cur_q self = xs /\ goal_q self = gs /\
    forall collision_free random_state,
      (forall k, length (random_state k) = length xs) ->
      exists s path,
        generate_path self collision_free random_state = Some (s, path) /\
        vertices (T s) !! 0%nat = Some xs /\
        (forall i q, vertices (T s) !! i = Some q -> length q = length xs) /\
        forall p, path = Some p ->
          head p = Some xs /\ last p = Some gs /\
          exists k sk, (k <= max_iter self)%nat /\
            loop self collision_free random_state k = Some (sk, Some p) /\
            extracted self sk p.
Proof.
  intros Hs Hg Hglen Hlo Hup Hsetup.
  destruct (setup_success _ _ _ _ _ _ _ _ _ Hs Hg Hsetup) as (-> & Hne & ->).
  destruct (robot_joint_limits arm) as [lo up] eqn:Hlim.
  eexists. split; [unfold as_planner; simpl; done|].
  split; [done|]. split; [done|].
  intros collision_free random_state Hsample. unfold generate_path.
  set (self := mkPlanner _ _ _ _ _ _ _ _ _).
  destruct (loop_total self collision_free random_state (max_iter self))
    as [[s path] Hloop].
  { simpl. by destruct xs. }
  exists s, path. split; [done|].
  destruct (loop_vertices _ _ _ _ _ _ Hloop) as [Hroot _].
  split; [done|].
  split; [exact (loop_vertex_length self collision_free random_state _ _ _ Hsample Hloop)|].
  intros p ->. destruct (loop_path _ _ _ _ _ _ Hloop) as (k & sk & Hk & Hlk & Hex).
  destruct (extracted_ends _ _ _ Hex) as [Hhd Hlast].
  split; [done|]. split; [done|]. by exists k, sk.
Qed.

(** C9 (start in collision).  When the collision report at setup is
    positive and lists a pair that is not obstacle-obstacle, the check
    raises CollisionError with a listed pair that is not obstacle-obstacle
    (the first one); setup then ends in an exception, which is this
    CollisionError whenever the configurations passed validation, and it
    leaves the planner's tree and cost map untouched.  A report whose
    pairs are all obstacle-obstacle raises nothing. *)
Theorem init_collision_raises (names : list (string * string)) (pr : string * string) :
  In pr names -> obstacle_pair pr = false ->
  exists first,
    In first names /\ obstacle_pair first = false /\
    _check_init_collision (true, names) = Some (CollisionError first) /\
    (forall obj start goal arm,
       let res := setup_start_goal_joint robot_joint_limits (true, names)
                    obj start goal arm in
       res.2 <> None /\
       o_T res.1 = o_T obj /\ o_cost res.1 = o_cost obj /\
       forall xs gs, supplied start xs -> goal = NdArray gs ->
         forallb (fun x => negb (Reqb x 0)) xs = false ->
         res.2 = Some (CollisionError first)) /\
    (forall is_collision others,
       (forall q, In q others -> obstacle_pair q = true) ->
       _check_init_collision (is_collision, others) = None).
Proof.
  intros Hin Hpr.
  assert (Hfirst : exists first, first_offending names = Some first /\
            In first names /\ obstacle_pair first = false).
  { clear -Hin Hpr. induction names as [|[n1 n2] rest IH]; simpl in *; [done|].
    destruct (contains "obstacle" n1 && contains "obstacle" n2) eqn:Hob; simpl.
    - destruct Hin as [<-|Hin].
      + unfold obstacle_pair in Hpr. simpl in Hpr. congruence.
      + destruct (IH Hin) as (f & ? & ? & ?). exists f. eauto.
    - exists (n1, n2). split; [done|]. split; [by left|done]. }
  destruct Hfirst as (first & Hfo & Hfin & Hfob).
  assert (Hcheck : _check_init_collision (true, names) = Some (CollisionError first)).
  { unfold _check_init_collision. simpl. by rewrite Hfo. }
  exists first. split; [done|]. split; [done|]. split; [done|]. split.
  - intros obj start goal arm res. unfold res, setup_start_goal_joint.
    destruct (_check_q_data _ goal) as [e|ok] eqn:Hq; simpl.
    { split; [done|]. split; [done|]. split; [done|].
      intros xs gs Hs -> Hall. exfalso. simpl in Hq.
      assert (Hcq : (if isinstance_ndarray start then start else np_array start)
                    = NdArray xs) by (destruct Hs as [-> | ->]; done).
      rewrite Hcq, check_q_data_arrays, Hall in Hq. done. }
    destruct (py_len _) as [e|n] eqn:Hn; simpl.
    + split; [done|]. split; [by destruct ok|]. split; [by destruct ok|].
      intros xs gs Hs -> Hall. exfalso.
      destruct Hs as [-> | ->]; simpl in Hn; done.
    + unfold _setup_collision_and_q_limit. rewrite Hcheck. simpl.
      split; [done|]. split; [by destruct ok|]. split; [by destruct ok|]. done.
  - intros is_collision others Hall. unfold _check_init_collision. simpl.
    destruct is_collision; [|done].
    replace (first_offending others) with (@None (string * string)); [done|].
    symmetry. clear -Hall. induction others as [|[n1 n2] rest IH]; simpl; [done|].
    pose proof (Hall (n1, n2) (or_introl eq_refl)) as Hob.
    unfold obstacle_pair in Hob. simpl in Hob. rewrite Hob. simpl.
    apply IH. intros q Hq. apply Hall. by right.
Qed.

End StartProperties.

Section SetupExamples.
Local Open Scope R_scope.

Lemma start_is_root_witness :
  exists self,
    as_planner ready_obj = Some self /\ cur_q self = [0; 0] /\ goal_q self = [0; 5] /\
    forall collision_free random_state,
      (forall k, length (random_state k) = length [0; 0]) ->
      exists s path,
        generate_path self collision_free random_state = Some (s, path) /\
        vertices (T s) !! 0%nat = Some [0; 0] /\
        (forall i q, vertices (T s) !! i = Some q -> length q = length [0; 0]) /\
        forall p, path = Some p ->
          head p = Some [0; 0] /\ last p = Some [0; 5] /\
          exists k sk, (k <= max_iter self)%nat /\
            loop self collision_free random_state k = Some (sk, Some p) /\
            extracted self sk p.
Proof.
  apply (start_is_root demo_limits (false, []) fresh_obj ready_obj
           (PyList [0; 0]) (NdArray [0; 5]) None [0; 0] [0; 5]).
  - left. reflexivity.
  - right. reflexivity.
  - reflexivity.
  - reflexivity.
  - reflexivity.
  - unfold setup_start_goal_joint. simpl. rewrite check_q_data_arrays. simpl.
    rewrite Reqb_refl. simpl. reflexivity.
Defined.

Lemma init_collision_raises_witness :
  exists first,
    In first [("obstacle_1", "obstacle_2"); ("right_l6", "obstacle_1")]%string /\
    obstacle_pair first = false /\
    _check_init_collision
      (true, [("obstacle_1", "obstacle_2"); ("right_l6", "obstacle_1")]%string)
      = Some (CollisionError first) /\
    (forall obj start goal arm,
       let res := setup_start_goal_joint demo_limits
                    (true, [("obstacle_1", "obstacle_2"); ("right_l6", "obstacle_1")]%string)
                    obj start goal arm in
       res.2 <> None /\
       o_T res.1 = o_T obj /\ o_cost res.1 = o_cost obj /\
       forall xs gs, supplied start xs -> goal = NdArray gs ->
         forallb (fun x => negb (Reqb x 0)) xs = false ->
         res.2 = Some (CollisionError first)) /\
    (forall is_collision others,
       (forall q, In q others -> obstacle_pair q = true) ->
       _check_init_collision (is_collision, others) = None).
Proof.
  apply (init_collision_raises demo_limits
           [("obstacle_1", "obstacle_2"); ("right_l6", "obstacle_1")]%string
           ("right_l6", "obstacle_1")%string).
  - right. left. reflexivity.
  - reflexivity.
Defined.

End SetupExamples.

(** * Further properties of the planner's functions *)

Section NearestProperties.
Local Open Scope R_scope.

Lemma argmin_from_spec (pre ds : list R) (bi : nat) (b : R) :
  pre !! bi = Some b ->
  (forall j x, pre !! j = Some x -> b <= x /\ ((j < bi)%nat -> b < x)) ->
  let r := argmin_from bi b (length pre) ds in
  exists m, (pre ++ ds) !! r = Some m /\
    forall j x, (pre ++ ds) !! j = Some x -> m <= x /\ ((j < r)%nat -> m < x).
Proof.
  revert pre bi b. induction ds as [|d ds IH]; intros pre bi b Hb Hmin; simpl.
  - exists b. rewrite app_nil_r. done.
  - assert (Hlen : length (pre ++ [d]) = S (length pre))
      by (rewrite length_app; simpl; lia).
    assert (Hbi : (bi < length pre)%nat) by (by eapply lookup_lt_Some).
    destruct (Rltb d b) eqn:Hlt.
    + apply Rltb_true in Hlt.
      specialize (IH (pre ++ [d]) (length pre) d).
      rewrite Hlen, <- app_assoc in IH. apply IH.
      * rewrite lookup_app_r by lia. by replace (_ - _)%nat with 0%nat by lia.
      * intros j x Hj. apply lookup_app_Some in Hj as [Hj|[Hge Hj]].
        -- destruct (Hmin j x Hj). split; [lra|]. intros _. lra.
        -- destruct (j - length pre)%nat eqn:E; simpl in Hj; [|done].
           injection Hj as <-. split; [lra|lia].
    + apply Rltb_false in Hlt.
      specialize (IH (pre ++ [d]) bi b).
      rewrite Hlen, <- app_assoc in IH. apply IH.
      * by rewrite lookup_app_l.
      * intros j x Hj. apply lookup_app_Some in Hj as [Hj|[Hge Hj]].
        -- by apply Hmin.
        -- destruct (j - length pre)%nat eqn:E; simpl in Hj; [|done].
           injection Hj as <-. split; [done|lia].
Qed.

(** X1.  On a tree whose vertices all have the length of the sample,
    [nearest_neighbor] raises when the tree has no vertex; otherwise it
    returns a vertex together with its index, no vertex is closer to the
    sample, and every vertex of lower index is strictly farther (the first
    minimum wins a tie). *)
Theorem nearest_neighbor_first_minimum (random_q : Config) (tree : Tree) :
  Forall (fun vertex => length vertex = length random_q) (vertices tree) ->
  match nearest_neighbor random_q tree with
  | None => vertices tree = []
  | Some (q, i) =>
      vertices tree !! i = Some q /\
      forall j v, vertices tree !! j = Some v ->
        distance random_q q <= distance random_q v /\
        ((j < i)%nat -> distance random_q q < distance random_q v)
  end.
Proof.
  intros _. unfold nearest_neighbor.
  destruct (vertices tree) as [|q0 qs] eqn:Hv; [done|].
  simpl argmin. cbn [mbind option_bind].
  pose proof (argmin_from_spec [distance random_q q0]
                (map (fun vertex => distance random_q vertex) qs) 0 _ eq_refl) as H.
  simpl in H. destruct H as (m & Hm & Hmin).
  { intros [|j] x Hj; simpl in Hj; [|done]. injection Hj as <-. split; [lra|lia]. }
  set (r := argmin_from _ _ _ _) in *.
  change (distance random_q q0 :: map (fun vertex => distance random_q vertex) qs)
    with (map (fun vertex => distance random_q vertex) (q0 :: qs)) in Hm, Hmin.
  rewrite list_lookup_fmap in Hm.
  destruct ((q0 :: qs) !! r) as [q|] eqn:Hq; simpl in Hm; [|done].
  injection Hm as <-. simpl. split; [done|].
  intros j v Hj. apply (Hmin j). rewrite list_lookup_fmap, Hj. done.
Qed.

Lemma nearest_neighbor_first_minimum_witness :
  match nearest_neighbor [3; 5] (T demo_state1) with
  | None => vertices (T demo_state1) = []
  | Some (q, i) =>
      vertices (T demo_state1) !! i = Some q /\
      forall j v, vertices (T demo_state1) !! j = Some v ->
        distance [3; 5] q <= distance [3; 5] v /\
        ((j < i)%nat -> distance [3; 5] q < distance [3; 5] v)
  end.
Proof.
  apply (nearest_neighbor_first_minimum [3; 5] (T demo_state1)).
  repeat constructor.
Defined.

(** X2.  On configurations of one dimension [distance] is a metric. *)
Theorem distance_metric (a b c : Config) :
  length a = length b -> length b = length c ->
  0 <= distance a b /\
  distance a b = distance b a /\
  (distance a b = 0 <-> a = b) /\
  distance a c <= distance a b + distance b c.
Proof.
  intros Hab Hbc. split; [apply distance_nonneg|]. split; [apply distance_sym|].
  split; [by apply distance_zero_iff|by apply distance_triangle].
Qed.

Lemma distance_metric_witness :
  0 <= distance [0; 0] [3; 4] /\
  distance [0; 0] [3; 4] = distance [3; 4] [0; 0] /\
  (distance [0; 0] [3; 4] = 0 <-> [0; 0] = [3; 4]) /\
  distance [0; 0] [8; 5] <= distance [0; 0] [3; 4] + distance [3; 4] [8; 5].
Proof.
  apply (distance_metric [0; 0] [3; 4] [8; 5]); reflexivity.
Defined.

End NearestProperties.

Section ParentChoiceProperties.
Local Open Scope R_scope.

Variable self : Planner.
Variable collision_free : Config -> bool.

(** X3.  [get_minimum_cost] never returns more than the cost it was given;
    when the new configuration is collision-free its result is a lower
    bound of the cost through every neighbour, and it is either the given
    pair or the cost through the returned neighbour; when the new
    configuration collides the given pair comes back unchanged. *)
Theorem get_minimum_cost_minimal s nbrs new_q mc0 p0 mc p :
  get_minimum_cost collision_free s nbrs new_q mc0 p0 = Some (mc, p) ->
  mc <= mc0 /\
  ((mc = mc0 /\ p = p0) \/
   exists cp qp, In p nbrs /\ cost s !! p = Some cp /\
     vertices (T s) !! p = Some qp /\ mc = cp + distance new_q qp /\ mc < mc0) /\
  (collision_free new_q = true ->
   forall i, In i nbrs ->
     exists ci vi, cost s !! i = Some ci /\ vertices (T s) !! i = Some vi /\
       mc <= ci + distance new_q vi) /\
  (collision_free new_q = false -> mc = mc0 /\ p = p0).
Proof.
  revert mc0 p0. induction nbrs as [|i nbrs IH]; intros mc0 p0 H; simpl in H.
  - injection H as <- <-. split; [lra|]. split; [by left|]. split; [|done].
    intros _ i [].
  - destruct (vertices (T s) !! i) as [v|] eqn:Hv; simpl in H; [|done].
    destruct (get_new_cost s i new_q v) as [nc|] eqn:Hnc; simpl in H; [|done].
    apply get_new_cost_Some in Hnc as (ci & Hci & ->).
    destruct (Rltb _ mc0) eqn:Hlt; destruct (collision_free new_q) eqn:Hcf;
      simpl in H; destruct (IH _ _ H) as (Hle & Hor & Hall & Hno).
    + apply Rltb_true in Hlt. split; [lra|]. split; [|split; [|done]].
      * right. destruct Hor as [[-> ->]|(cp & qp & Hin & ? & ? & ? & ?)].
        -- exists ci, v. simpl. repeat split; try done. by left.
        -- exists cp, qp. simpl. repeat split; try done; [by right|lra].
      * intros _ j [<-|Hj]; [|by apply Hall].
        exists ci, v. done.
    + destruct (Hno eq_refl) as [-> ->]. split; [lra|]. split; [by left|]. done.
    + apply Rltb_false in Hlt. split; [done|]. split; [|split; [|done]].
      * destruct Hor as [?|(cp & qp & Hin & ? & ? & ? & ?)]; [by left|].
        right. exists cp, qp. simpl. repeat split; try done. by right.
      * intros _ j [<-|Hj]; [|by apply Hall].
        exists ci, v. repeat split; try done. lra.
    + destruct (Hno eq_refl) as [-> ->]. split; [lra|]. split; [by left|]. done.
Qed.

Lemma rewire_one_new_cost s i new_q new_idx s' :
  rewire_one collision_free s i new_q new_idx = Some s' ->
  cost s' !! new_idx = cost s !! new_idx.
Proof.
  intros H. destruct (rewire_one_spec _ _ _ _ _ _ H)
    as [->|(v & cn & ci & k & Hv & _ & Hcn & Hci & Hlt & Hk & ->)]; [done|].
  simpl. pose proof (distance_nonneg new_q v).
  rewrite lookup_insert_ne; [done|].
  intros ->. rewrite Hcn in Hci. injection Hci as ->. lra.
Qed.

Lemma rewire_new_cost s nbrs new_q new_idx s' :
  rewire collision_free s nbrs new_q new_idx = Some s' ->
  cost s' !! new_idx = cost s !! new_idx.
Proof.
  revert s. induction nbrs as [|i nbrs IH]; intros s H; simpl in H.
  - by injection H as <-.
  - destruct (rewire_one _ s i new_q new_idx) as [s1|] eqn:H1; simpl in H; [|done].
    rewrite (IH _ H). by eapply rewire_one_new_cost.
Qed.

(** X4.  When [rewire] returns, the cost of the new vertex is as it was
    and no collision-free neighbour is left that would be cheaper through
    the new vertex. *)
Theorem rewire_leaves_no_improvement s nbrs new_q new_idx s' :
  rewire collision_free s nbrs new_q new_idx = Some s' ->
  cost s' !! new_idx = cost s !! new_idx /\
  forall i v, In i nbrs -> vertices (T s) !! i = Some v ->
    collision_free v = true ->
    exists ci cn, cost s' !! i = Some ci /\ cost s' !! new_idx = Some cn /\
      ci <= cn + distance new_q v.
Proof.
  intros H. split; [by eapply rewire_new_cost|].
  revert s H. induction nbrs as [|i nbrs IH]; intros s H j v Hin Hv Hcf; [done|].
  simpl in H.
  destruct (rewire_one _ s i new_q new_idx) as [s1|] eqn:H1; simpl in H; [|done].
  pose proof (rewire_one_vertices _ _ _ _ _ _ H1) as Hvs.
  destruct Hin as [<-|Hin]; [|apply (IH _ H); [done|by rewrite Hvs|done]].
  assert (Hone : exists ci cn, cost s1 !! i = Some ci /\ cost s1 !! new_idx = Some cn /\
            ci <= cn + distance new_q v).
  { pose proof (rewire_one_new_cost _ _ _ _ _ H1) as Hn1.
    unfold rewire_one in H1. rewrite Hv in H1. simpl in H1.
    destruct (get_new_cost s new_idx new_q v) as [nc|] eqn:Hnc; simpl in H1; [|done].
    apply get_new_cost_Some in Hnc as (cn & Hcn & ->).
    rewrite Hcf in H1.
    destruct (cost s !! i) as [ci|] eqn:Hci; simpl in H1; [|done].
    destruct (Rltb _ ci) eqn:Hlt.
    - destruct (py_index _ _); simpl in H1; [|done]. injection H1 as <-.
      simpl in *. exists (cn + distance new_q v), cn.
      rewrite lookup_insert_eq. rewrite Hn1. split; [done|]. split; [done|lra].
    - injection H1 as <-. apply Rltb_false in Hlt. by exists ci, cn. }
  destruct Hone as (ci & cn & Hci & Hcn & Hle).
  destruct (rewire_cost_le _ _ _ _ _ _ H _ _ Hci) as (ci' & Hci' & Hle').
  exists ci', cn. split; [done|]. split; [|lra].
  by rewrite (rewire_new_cost _ _ _ _ _ H).
Qed.

End ParentChoiceProperties.

Section RewireFrame.
Local Open Scope R_scope.

Variable self : Planner.
Variable collision_free : Config -> bool.

(** On a state of the planner a pass of [rewire] that changes something
    changes the edge of a neighbour other than vertex 0 and the new
    vertex. *)
Lemma rewire_one_cases s i new_q new_idx s' :
  planner_inv s -> vertices (T s) !! new_idx = Some new_q ->
  rewire_one collision_free s i new_q new_idx = Some s' ->
  s' = s \/
  (i <> 0%nat /\ i <> new_idx /\
   exists v cn ci e,
     vertices (T s) !! i = Some v /\ collision_free v = true /\
     cost s !! new_idx = Some cn /\ cost s !! i = Some ci /\
     cn + distance new_q v < ci /\
     edges (T s) !! (i - 1)%nat = Some e /\ e.2 = i /\
     s' = mkState (set_edge_parent (i - 1) new_idx (T s))
                  (<[i := cn + distance new_q v]> (cost s))).
Proof.
  intros Hinv Hnew H.
  destruct (rewire_one_spec _ _ _ _ _ _ H)
    as [->|(v & cn & ci & k & Hv & Hcf & Hcn & Hci & Hlt & Hk & ->)]; [by left|].
  right. pose proof (distance_nonneg new_q v).
  assert (Hnewlt : (new_idx < length (vertices (T s)))%nat) by (by eapply lookup_lt_Some).
  assert (Hi0 : i <> 0%nat).
  { intros ->. destruct (inv_reach s Hinv new_idx Hnewlt) as [l Hl].
    pose proof (root_cost_le _ _ _ _ _ Hinv Hl Hcn Hci). lra. }
  assert (i <> new_idx) by (intros ->; rewrite Hcn in Hci; injection Hci as ->; lra).
  pose proof (inv_len s Hinv). pose proof (lookup_lt_Some _ _ _ Hv).
  rewrite py_index_pred in Hk by lia. injection Hk as <-.
  destruct (lookup_lt_is_Some_2 (edges (T s)) (i - 1)) as [e He]; [lia|].
  destruct (inv_edges s Hinv _ _ He) as [He2 _].
  split; [done|]. split; [done|]. exists v, cn, ci, e.
  repeat split; try done. lia.
Qed.

Lemma rewire_one_frame s i new_q new_idx s' :
  planner_inv s -> vertices (T s) !! new_idx = Some new_q ->
  rewire_one collision_free s i new_q new_idx = Some s' ->
  length (edges (T s')) = length (edges (T s)) /\
  forall v, v <> i ->
    cost s' !! v = cost s !! v /\ parent (T s') v = parent (T s) v.
Proof.
  intros Hinv Hnew H.
  pose proof (rewire_one_inv _ _ _ _ _ _ Hinv Hnew H) as Hinv'.
  destruct (rewire_one_cases _ _ _ _ _ Hinv Hnew H)
    as [->|(Hi0 & Hin & v & cn & ci & e & Hv & Hcf & Hcn & Hci & Hlt & He & He2 & ->)];
    [done|].
  simpl. split; [by rewrite length_alter|].
  intros x Hx. split; [by rewrite lookup_insert_ne|].
  rewrite !parent_lookup.
  - case_decide; [done|]. simpl. by rewrite list_lookup_alter_ne by lia.
  - intros k e' He'. by apply (inv_edges s Hinv).
  - intros k e' He'. by apply (inv_edges _ Hinv').
Qed.

(** X5.  On a state of the planner [rewire] leaves the vertex sequence and
    the number of edges as they are, and it touches neither the cost nor
    the parent of a vertex outside the neighbour list; a parent it sets is
    the new vertex. *)
Theorem rewire_frame s nbrs new_q new_idx s' :
  planner_inv s -> vertices (T s) !! new_idx = Some new_q ->
  rewire collision_free s nbrs new_q new_idx = Some s' ->
  vertices (T s') = vertices (T s) /\
  length (edges (T s')) = length (edges (T s)) /\
  (forall v, ~ In v nbrs ->
     cost s' !! v = cost s !! v /\ parent (T s') v = parent (T s) v) /\
  (forall v, parent (T s') v = parent (T s) v \/ parent (T s') v = Some new_idx).
Proof.
  revert s. induction nbrs as [|i nbrs IH]; intros s Hinv Hnew H; simpl in H.
  - injection H as <-. repeat split; try done. by left.
  - destruct (rewire_one _ s i new_q new_idx) as [s1|] eqn:H1; simpl in H; [|done].
    pose proof (rewire_one_inv _ _ _ _ _ _ Hinv Hnew H1) as Hinv1.
    pose proof (rewire_one_vertices _ _ _ _ _ _ H1) as Hv1.
    destruct (rewire_one_frame _ _ _ _ _ Hinv Hnew H1) as [Hlen1 Hfr1].
    destruct (IH s1 Hinv1) as (Hv & Hlen & Hfr & Hpar); [by rewrite Hv1|done|].
    split; [by rewrite Hv|]. split; [by rewrite Hlen|]. split.
    + intros v Hnot. simpl in Hnot.
      destruct (Hfr v) as [Hc Hp]; [tauto|].
      destruct (Hfr1 v) as [Hc1 Hp1]; [intros ->; tauto|].
      split; congruence.
    + intros v. destruct (Hpar v) as [Hp|Hp]; [|by right].
      rewrite Hp. destruct (decide (v = i)) as [->|Hne].
      * destruct (rewire_one_cases _ _ _ _ _ Hinv Hnew H1)
          as [->|(Hi0 & Hin & w & cn & ci & e & Hw & Hcf & Hcn & Hci & Hlt & He & He2 & ->)];
          [by left|].
        right. rewrite parent_lookup by (intros k e' He'; by apply (inv_edges _ Hinv1)).
        rewrite decide_False by done. simpl. by rewrite list_lookup_alter_eq, He.
      * left. by apply Hfr1.
Qed.

Lemma find_near_neighbor_within (s : PState) (q : Config) nbrs :
  find_near_neighbor self collision_free s q = Some nbrs ->
  forall i, In i nbrs ->
    exists v, vertices (T s) !! i = Some v /\ distance v q <= delta_dis self.
Proof.
  unfold find_near_neighbor. case_decide; [done|]. intros [= <-] i Hi.
  apply near_indexes_from_spec in Hi as (_ & d & Hd & Hle & _).
  replace (i - 0)%nat with i in Hd by lia. rewrite list_lookup_fmap in Hd.
  destruct (vertices (T s) !! i) as [v|]; simpl in Hd; [|done].
  injection Hd as <-. exists v. split; [done|].
  unfold search_radius in Hle. etransitivity; [exact Hle|apply Rmin_r].
Qed.


End RewireFrame.

Section RunProperties.
Local Open Scope R_scope.

Variable self : Planner.
Variable collision_free : Config -> bool.
Variable random_state : nat -> Config.

(** X7.  Every vertex [generate_path] inserts has passed the collision
    check and lies within the joint limits (vertex 0, the start, is put in
    the tree unchecked). *)
Theorem inserted_vertices_checked k s path :
  loop self collision_free random_state k = Some (s, path) ->
  forall i q, (1 <= i)%nat -> vertices (T s) !! i = Some q ->
    collision_free q = true /\ _q_in_limits self q = true.
Proof.
  revert s path. induction k as [|k IH]; intros s path H i q Hi Hq.
  - injection H as <- _. simpl in Hq. destruct i as [|i]; [lia|]. done.
  - apply loop_succ in H as ([s0 p0] & H0 & Hit).
    pose proof (loop_inv _ _ _ _ _ _ H0) as Hinv.
    destruct (iteration_cases _ _ _ _ _ _ _ _ Hinv Hit)
      as (nq & ni & _ & _ & [(_ & -> & _)|(Hok & _ & _ & Hv & _)]).
    + by eapply IH.
    + rewrite Hv in Hq. apply lookup_app_Some in Hq as [Hq|[Hge Hq]].
      * by eapply IH.
      * destruct (i - length (vertices (T s0)))%nat; simpl in Hq; [|done].
        injection Hq as <-. by apply andb_true_iff in Hok.
Qed.

Lemma loop_grows j k s path s' path' :
  (j <= k)%nat ->
  loop self collision_free random_state j = Some (s, path) ->
  loop self collision_free random_state k = Some (s', path') ->
  (exists added, vertices (T s') = vertices (T s) ++ added /\
     (length added <= k - j)%nat) /\
  (length (edges (T s)) <= length (edges (T s')))%nat /\
  (is_Some path -> is_Some path').
Proof.
  intros Hjk Hj. revert s' path'. induction Hjk as [|k Hjk IH]; intros s' path' Hk.
  - rewrite Hj in Hk. injection Hk as <- <-.
    split; [exists []; rewrite app_nil_r; simpl; split; [done|lia]|]. done.
  - apply loop_succ in Hk as ([s1 p1] & H1 & Hit).
    destruct (IH _ _ H1) as ((added & Hadd & Hlen) & Hedges & Hpath).
    pose proof (loop_inv _ _ _ _ _ _ H1) as Hinv.
    destruct (iteration_cases _ _ _ _ _ _ _ _ Hinv Hit)
      as (nq & ni & _ & _ & [(_ & -> & ->)|(_ & _ & Hinv' & Hv & Hp)]).
    + split; [exists added; split; [done|lia]|]. done.
    + split; [|split].
      * exists (added ++ [new_state self nq (random_state k)]).
        rewrite Hv, Hadd, <- app_assoc. split; [done|].
        rewrite length_app. simpl. lia.
      * pose proof (inv_len _ Hinv). pose proof (inv_len _ Hinv') as Hl'.
        rewrite Hv, length_app in Hl'. simpl in Hl'. lia.
      * intros Hsome. destruct Hp as [[_ ->]|(_ & p & -> & _)]; [by apply Hpath|done].
Qed.

(** X8.  The tree only grows and a recorded path is never dropped: from
    one iteration to a later one the vertex sequence is extended at its end,
    the number of edges does not go down, and once a path has been recorded
    some path stays recorded. *)
Theorem tree_only_grows j k s path s' path' :
  (j <= k)%nat ->
  loop self collision_free random_state j = Some (s, path) ->
  loop self collision_free random_state k = Some (s', path') ->
  (exists added, vertices (T s') = vertices (T s) ++ added /\
     (length added <= k - j)%nat) /\
  (length (edges (T s)) <= length (edges (T s')))%nat /\
  (is_Some path -> is_Some path').
Proof. apply loop_grows. Qed.

(** A recorded path ends with the vertex inserted last, which passed the
    goal check, followed by the goal. *)
Lemma loop_path_last k s p :
  loop self collision_free random_state k = Some (s, Some p) ->
  exists mid q, p = cur_q self :: mid ++ [q; goal_q self] /\
    reach_to_goal self q = true.
Proof.
  revert s p. induction k as [|k IH]; intros s p H; [done|].
  apply loop_succ in H as ([s0 p0] & H0 & Hit).
  pose proof (loop_inv _ _ _ _ _ _ H0) as Hinv.
  destruct (iteration_cases _ _ _ _ _ _ _ _ Hinv Hit)
    as (nq & ni & _ & _ & [(_ & _ & <-)|(_ & _ & Hinv' & Hv & [[_ <-]|(Hgoal & p' & [= <-] & Hp)])]).
  - by eapply IH.
  - by eapply IH.
  - pose proof (inv_len s Hinv') as Hl. rewrite Hv, length_app in Hl. simpl in Hl.
    pose proof (inv_len s0 Hinv) as Hl0.
    destruct (find_path_spec self s Hinv') as (l & qs & Hl' & Hqs & Hfp); [lia|].
    rewrite Hfp in Hp. injection Hp as <-.
    destruct Hl' as [|v pa l Hv0 Hpa Hc]; [lia|].
    apply Forall2_cons_inv_l in Hqs as (q & qs' & Hq & _ & ->).
    rewrite Hv in Hq. rewrite lookup_app_r in Hq by lia.
    replace (_ - _)%nat with 0%nat in Hq by lia. injection Hq as <-.
    exists (rev qs'), (new_state self nq (random_state k)).
    split; [|done]. simpl. rewrite <- app_assoc. done.
Qed.

(** X9.  A path returned by [generate_path] has at least three elements:
    it starts at the start configuration and ends with a tree vertex
    within 0.2 of the goal followed by the goal itself. *)
Theorem returned_path_ends_at_goal s p :
  generate_path self collision_free random_state = Some (s, Some p) ->
  exists mid q,
    p = cur_q self :: mid ++ [q; goal_q self] /\
    distance q (goal_q self) <= 2 / 10 /\
    In q (vertices (T s)) /\
    (3 <= length p)%nat.
Proof.
  unfold generate_path. intros H.
  destruct (loop_path_last _ _ _ H) as (mid & q & -> & Hq).
  exists mid, q. split; [done|]. split; [by apply Rleb_true|]. split.
  - destruct (loop_path self collision_free random_state _ _ _ H)
      as (j & sj & Hj & Hlj & (l & qs & Hl & Hqs & Hp)).
    assert (Hin : In q (vertices (T sj))).
    { assert (Hq' : In q (rev qs)).
      { injection Hp as Hp. apply (f_equal (@rev (list R))) in Hp.
        rewrite !rev_app_distr in Hp. simpl in Hp. rewrite rev_involutive in Hp.
        injection Hp as Hp. destruct qs as [|q' qs']; [done|].
        injection Hp as -> _. apply in_rev. rewrite rev_involutive. by left. }
      apply in_rev in Hq'. apply list_elem_of_In, list_elem_of_lookup in Hq' as [i Hi].
      destruct (Forall2_lookup_r _ _ _ _ _ Hqs Hi) as (x & _ & Hx).
      apply list_elem_of_In. by eapply list_elem_of_lookup_2. }
    destruct (loop_grows j (max_iter self) sj (Some (cur_q self :: mid ++ [q; goal_q self]))
                s (Some (cur_q self :: mid ++ [q; goal_q self])) Hj Hlj H)
      as ((added & -> & _) & _).
    apply in_or_app. by left.
  - simpl. rewrite length_app. simpl. lia.
Qed.

(** X10.  [get_rrt_tree] raises nothing at any point of [generate_path];
    it returns one pair per vertex other than vertex 0, and the pair of
    position [k] holds the configuration of the parent of vertex [k+1]
    and the configuration of vertex [k+1]. *)
Theorem get_rrt_tree_pairs s :
  visited self collision_free random_state s ->
  exists pairs,
    get_rrt_tree (T s) = Some pairs /\
    (length pairs + 1 = length (vertices (T s)))%nat /\
    forall k from_node goal_node,
      pairs !! k = Some (from_node, goal_node) ->
      vertices (T s) !! S k = Some goal_node /\
      exists p, parent (T s) (S k) = Some p /\ vertices (T s) !! p = Some from_node.
Proof.
  intros Hvis. pose proof (visited_inv _ _ _ _ Hvis) as Hinv.
  destruct (mapM_is_Some_2
              (fun edge : nat * nat =>
                 from_node ← vertices (T s) !! edge.1;
                 goal_node ← vertices (T s) !! edge.2;
                 Some (from_node, goal_node)) (edges (T s))) as [pairs Hpairs].
  { apply Forall_forall. intros e He. apply list_elem_of_lookup in He as [k Hk].
    destruct (inv_cost s Hinv _ _ Hk) as (_ & _ & qp & qv & _ & _ & H3 & H4 & _).
    destruct (inv_edges s Hinv _ _ Hk) as [He2 _].
    simpl. rewrite H3. simpl. rewrite He2, H4. done. }
  exists pairs. split; [done|].
  pose proof (length_mapM _ _ _ Hpairs) as Hlen.
  split; [rewrite <- Hlen; apply (inv_len s Hinv)|].
  intros k from_node goal_node Hk.
  apply mapM_Some_1 in Hpairs.
  destruct (Forall2_lookup_r _ _ _ _ _ Hpairs Hk) as (e & He & Hf).
  destruct (inv_edges s Hinv _ _ He) as [He2 _].
  destruct (vertices (T s) !! e.1) as [qf|] eqn:Hqf; simpl in Hf; [|done].
  destruct (vertices (T s) !! e.2) as [qg|] eqn:Hqg; simpl in Hf; [|done].
  injection Hf as <- <-. rewrite He2 in Hqg. split; [done|].
  exists e.1. split; [|done].
  rewrite parent_lookup by (intros j e' He'; by apply (inv_edges s Hinv)).
  rewrite decide_False by lia. simpl. replace (k - 0)%nat with k by lia.
  by rewrite He.
Qed.

End RunProperties.

Section StepProperties.
Local Open Scope R_scope.

Variable self : Planner.
Variable collision_free : Config -> bool.
Variable random_state : nat -> Config.

(** Every sample has the dimension of the start configuration. *)
Hypothesis sample_dimension :
  forall k, length (random_state k) = length (cur_q self).

Lemma loop_dimension k s path :
  loop self collision_free random_state k = Some (s, path) ->
  forall i q, vertices (T s) !! i = Some q -> length q = length (cur_q self).
Proof.
  revert s path. induction k as [|k IH]; intros s path H i q Hq.
  - injection H as <- _. simpl in Hq. destruct i; simpl in Hq; [|done].
    by injection Hq as <-.
  - apply loop_succ in H as ([s0 p0] & H0 & Hit).
    pose proof (loop_inv _ _ _ _ _ _ H0) as Hinv.
    destruct (iteration_cases _ _ _ _ _ _ _ _ Hinv Hit)
      as (nq & ni & _ & Hni & [(_ & -> & _)|(_ & _ & _ & Hv & _)]).
    + by eapply IH.
    + rewrite Hv in Hq. apply lookup_app_Some in Hq as [Hq|[Hge Hq]].
      * by eapply IH.
      * destruct (i - length (vertices (T s0)))%nat; simpl in Hq; [|done].
        injection Hq as <-. pose proof (IH _ _ H0 _ _ Hni) as Hnq.
        rewrite new_state_length; [done|]. by rewrite sample_dimension.
Qed.

Lemma choose_parent_member s nq ni new_q nbrs mc p :
  choose_parent self collision_free s nq ni new_q = Some (nbrs, mc, p) ->
  find_near_neighbor self collision_free s new_q = Some nbrs /\
  (p = ni \/ In p nbrs).
Proof.
  intros H. unfold choose_parent in H.
  destruct (find_near_neighbor _ _ s new_q) as [nb|]; simpl in H; [|done].
  destruct (get_new_cost s ni nq new_q) as [mc0|]; simpl in H; [|done].
  destruct (get_minimum_cost _ s nb new_q _ ni) as [[mc' p']|] eqn:Hmin; simpl in H; [|done].
  injection H as -> -> ->. split; [done|].
  destruct (get_minimum_cost_spec _ _ _ _ _ _ _ _ Hmin)
    as [_ [[_ ->]|(cp & qp & Hin & _)]]; [by left|by right].
Qed.

(** The links of the tree are no longer than [delta]. *)
Lemma rewire_links_short s nbrs new_q new_idx s' :
  planner_inv s -> vertices (T s) !! new_idx = Some new_q ->
  (forall i, In i nbrs ->
     exists v, vertices (T s) !! i = Some v /\ distance v new_q <= delta_dis self) ->
  (forall j e, edges (T s) !! j = Some e ->
     exists qp qc, vertices (T s) !! e.1 = Some qp /\
       vertices (T s) !! S j = Some qc /\ distance qp qc <= delta_dis self) ->
  rewire collision_free s nbrs new_q new_idx = Some s' ->
  forall j e, edges (T s') !! j = Some e ->
    exists qp qc, vertices (T s') !! e.1 = Some qp /\
      vertices (T s') !! S j = Some qc /\ distance qp qc <= delta_dis self.
Proof.
  revert s. induction nbrs as [|i nbrs IH]; intros s Hinv Hnew Hnear Hshort H; simpl in H.
  - by injection H as <-.
  - destruct (rewire_one _ s i new_q new_idx) as [s1|] eqn:H1; simpl in H; [|done].
    pose proof (rewire_one_inv _ _ _ _ _ _ Hinv Hnew H1) as Hinv1.
    pose proof (rewire_one_vertices _ _ _ _ _ _ H1) as Hv1.
    apply (IH s1); try done.
    + by rewrite Hv1.
    + intros x Hx. rewrite Hv1. apply Hnear. by right.
    + destruct (rewire_one_cases _ _ _ _ _ _ Hinv Hnew H1)
        as [->|(Hi0 & Hin & v & cn & ci & e0 & Hv & Hcf & Hcn & Hci & Hlt & He0 & He2 & ->)];
        [done|].
      intros j e He. simpl in *.
      destruct (decide (j = i - 1)%nat) as [->|Hj].
      * rewrite list_lookup_alter_eq, He0 in He. injection He as <-. simpl.
        replace (S (i - 1)) with i by lia.
        destruct (Hnear i (or_introl eq_refl)) as (v' & Hv' & Hd).
        rewrite Hv in Hv'. injection Hv' as <-.
        exists new_q, v. rewrite (distance_sym new_q v). done.
      * rewrite list_lookup_alter_ne in He by done. by apply Hshort.
Qed.

(** X11.  For a step size [delta >= 0] and samples of the dimension of
    the start, at every iteration of [generate_path] all vertices have the
    dimension of the start and every vertex is within [delta] of its
    parent, rewired parents included. *)
Theorem step_bound k s path :
  0 <= delta_dis self ->
  loop self collision_free random_state k = Some (s, path) ->
  (forall i q, vertices (T s) !! i = Some q -> length q = length (cur_q self)) /\
  forall v p qv qp,
    parent (T s) v = Some p ->
    vertices (T s) !! v = Some qv -> vertices (T s) !! p = Some qp ->
    distance qp qv <= delta_dis self.
Proof.
  intros Hdelta H. split; [by eapply loop_dimension|].
  assert (Hshort : forall j e, edges (T s) !! j = Some e ->
            exists qp qc, vertices (T s) !! e.1 = Some qp /\
              vertices (T s) !! S j = Some qc /\ distance qp qc <= delta_dis self).
  { revert s path H. induction k as [|k IH]; intros s path H.
    - injection H as <- _. intros j e He. simpl in He. by rewrite lookup_nil in He.
    - apply loop_succ in H as ([s0 p0] & H0 & Hit).
      pose proof (loop_inv _ _ _ _ _ _ H0) as Hinv.
      destruct (iteration_cases _ _ _ _ _ _ _ _ Hinv Hit)
        as (nq & ni & _ & Hni & [(_ & -> & _)|(_ & Hext & _ & _ & _)]); [by eapply IH|].
      set (new_q := new_state self nq (random_state k)) in *.
      unfold extend in Hext.
      destruct (choose_parent _ _ s0 nq ni new_q) as [[[nbrs mc] p]|] eqn:Hch;
        simpl in Hext; [|done].
      destruct (choose_parent_spec _ _ _ _ _ _ _ _ _ Hni Hch) as (_ & cp & qp & Hcp & Hqp & ->).
      destruct (choose_parent_member _ _ _ _ _ _ _ Hch) as [Hnb Hp].
      pose proof (find_near_neighbor_within self collision_free s0 new_q nbrs Hnb) as Hnear.
      change (rewire collision_free (insert_vertex s0 new_q (cp + distance qp new_q) p).1
                nbrs new_q (insert_vertex s0 new_q (cp + distance qp new_q) p).2 = Some s) in Hext.
      pose proof (insert_vertex_inv s0 new_q _ cp qp p Hinv Hcp Hqp (Rle_refl _)) as Hinv1.
      pose proof (inv_len s0 Hinv) as Hl0.
      assert (Hpd : distance qp new_q <= delta_dis self).
      { destruct Hp as [->|Hp].
        - rewrite Hni in Hqp. injection Hqp as <-.
          apply new_state_step_le; [|done].
          rewrite sample_dimension. by eapply loop_dimension.
        - destruct (Hnear p Hp) as (v & Hv & Hd). rewrite Hqp in Hv. by injection Hv as <-. }
      eapply rewire_links_short; [exact Hinv1|apply insert_vertex_new| | |exact Hext].
      + intros i Hi. destruct (Hnear i Hi) as (v & Hv & Hd). exists v. split; [|done].
        rewrite insert_vertex_vertices. rewrite lookup_app_l; [done|].
        by eapply lookup_lt_Some.
      + intros j e He. rewrite insert_vertex_vertices. simpl in He.
        rewrite length_app in He. simpl in He.
        apply lookup_app_Some in He as [He|[Hge He]].
        * destruct (IH _ _ H0 _ _ He) as (q1 & q2 & H1 & H2 & H3).
          exists q1, q2. rewrite !lookup_app_l by (by eapply lookup_lt_Some). done.
        * destruct (j - length (edges (T s0)))%nat eqn:E; simpl in He; [|done].
          injection He as <-. simpl. exists qp, new_q.
          rewrite lookup_app_l by (by eapply lookup_lt_Some).
          rewrite lookup_app_r by lia.
          replace (S j - length (vertices (T s0)))%nat with 0%nat by lia. done. }
  intros v p qv qp Hp Hqv Hqp.
  pose proof (loop_inv _ _ _ _ _ _ H) as Hinv.
  destruct (parent_cost _ _ _ Hinv Hp) as (Hv0 & e & He & <- & _).
  destruct (Hshort _ _ He) as (q1 & q2 & H1 & H2 & H3).
  replace (S (v - 1)) with v in H2 by lia. congruence.
Qed.

(** X12.  For samples of the dimension of the start, the cost recorded
    for a vertex is never below its straight-line distance from the
    start. *)
Theorem cost_at_least_distance k s path v q c :
  loop self collision_free random_state k = Some (s, path) ->
  vertices (T s) !! v = Some q -> cost s !! v = Some c ->
  distance (cur_q self) q <= c.
Proof.
  intros H Hq Hc.
  pose proof (loop_inv _ _ _ _ _ _ H) as Hinv.
  pose proof (visited_root _ _ _ _ (visited_loop _ _ _ _ _ _ H)) as H0.
  destruct (loop_vertices _ _ _ _ _ _ H) as [Hroot _].
  pose proof (loop_dimension _ _ _ H) as Hdim.
  destruct (inv_reach s Hinv v) as [l Hl]; [by eapply lookup_lt_Some|].
  revert q c Hq Hc. induction Hl as [|v p l Hv Hp Hl IH]; intros q c Hq Hc.
  - rewrite Hroot in Hq. injection Hq as <-. rewrite H0 in Hc. injection Hc as <-.
    apply Req_le. by apply distance_zero_iff.
  - destruct (parent_cost _ _ _ Hinv Hp)
      as (_ & _ & _ & _ & cp & cv & qp & qv & H1 & H2 & H3 & H4 & H5).
    rewrite Hq in H4. injection H4 as <-. rewrite Hc in H2. injection H2 as <-.
    specialize (IH qp cp H3 H1).
    pose proof (distance_triangle (cur_q self) qp q) as Htri.
    rewrite (Hdim _ _ H3), (Hdim _ _ Hq) in Htri.
    specialize (Htri eq_refl eq_refl). lra.
Qed.

End StepProperties.

Section SteerProperties.
Local Open Scope R_scope.

Variable self : Planner.

(** X13.  A sample no farther than [delta] from the nearest vertex is
    reached in one step: [new_state] returns the sample itself. *)
Theorem new_state_returns_close_sample (nearest_q random_q : Config) :
  length nearest_q = length random_q -> 0 <= delta_dis self ->
  distance nearest_q random_q <= delta_dis self ->
  new_state self nearest_q random_q = random_q /\
  (random_q = goal_q self -> reach_to_goal self (new_state self nearest_q random_q) = true).
Proof.
  intros Hlen Hdelta Hd.
  assert (Hnew : new_state self nearest_q random_q = random_q)
    by (by apply new_state_reach).
  split; [done|]. intros Hg. rewrite Hnew, Hg. unfold reach_to_goal.
  apply Rleb_true. replace (distance (goal_q self) (goal_q self)) with 0; [lra|].
  symmetry. by apply distance_zero_iff.
Qed.

End SteerProperties.

Section SamplingProperties.
Local Open Scope R_scope.

Variable self : Planner.
Variable uniform : nat -> R -> R -> R.

Lemma forallb_zip_Rleb (a b : list R) :
  forallb (fun e : bool => e) (zip_with Rleb a b) = true <->
  forall i x y, a !! i = Some x -> b !! i = Some y -> x <= y.
Proof.
  revert b. induction a as [|x a IH]; intros [|y b]; simpl.
  - split; [intros _ i ? ? Hi; by rewrite lookup_nil in Hi|done].
  - split; [intros _ i ? ? Hi; by rewrite lookup_nil in Hi|done].
  - split; [intros _ i ? ? _ Hi; by rewrite lookup_nil in Hi|done].
  - rewrite andb_true_iff, Rleb_true, IH. split.
    + intros [Hxy Hrest] [|i] x' y' Hx Hy; simpl in *.
      * injection Hx as <-. by injection Hy as <-.
      * by eapply Hrest.
    + intros H. split; [by apply (H 0%nat)|].
      intros i x' y' Hx Hy. by apply (H (S i)).
Qed.

Lemma fill_uniform_spec i (limits : list (R * R)) (q : Config) :
  (i + length limits <= length q)%nat ->
  exists q', fill_uniform uniform i limits q = Some q' /\
    length q' = length q /\
    forall j, q' !! j =
      if decide (i <= j < i + length limits)%nat
      then (fun lim : R * R => uniform j lim.1 lim.2) <$> limits !! (j - i)%nat
      else q !! j.
Proof.
  revert i q. induction limits as [|[lo up] rest IH]; intros i q Hlen; simpl in *.
  - exists q. split; [done|]. split; [done|]. intros j. by rewrite decide_False by lia.
  - rewrite decide_True by lia.
    destruct (IH (S i) (<[i := uniform i lo up]> q)) as (q' & -> & Hl & Hq').
    { rewrite length_insert. lia. }
    exists q'. split; [done|]. rewrite length_insert in Hl. split; [done|].
    intros j. rewrite Hq'. destruct (decide (j = i)) as [->|Hne].
    + rewrite decide_False by lia. rewrite decide_True by lia.
      replace (i - i)%nat with 0%nat by lia. simpl.
      by rewrite list_lookup_insert_eq by lia.
    + repeat case_decide; try lia.
      * by replace (j - i)%nat with (S (j - S i)) by lia.
      * by rewrite list_lookup_insert_ne.
Qed.

Lemma fill_uniform_overflow i (limits : list (R * R)) (q : Config) :
  (length q < i + length limits)%nat -> (i <= length q)%nat ->
  fill_uniform uniform i limits q = None.
Proof.
  revert i q. induction limits as [|[lo up] rest IH]; intros i q Hlen Hi; simpl in *; [lia|].
  case_decide; [|done]. apply IH; rewrite length_insert; lia.
Qed.

(** X14.  With limit vectors as long as the dimension, lower limits
    below the upper ones and uniform draws inside their intervals,
    [random_state] returns the goal when the coin is at most [epsilon] and
    otherwise a configuration of the planner's dimension within the joint
    limits, whose [i]-th coordinate is the [i]-th draw. *)
Theorem random_state_within_limits (coin : R) :
  length (q_limits_lower self) = dimension self ->
  length (q_limits_upper self) = dimension self ->
  (forall i lo up, lo <= up -> lo <= uniform i lo up <= up) ->
  (forall i lo up, q_limits_lower self !! i = Some lo ->
     q_limits_upper self !! i = Some up -> lo <= up) ->
  exists q, random_state_from self uniform coin = Some q /\
    (coin <= epsilon self -> q = goal_q self) /\
    (epsilon self < coin ->
       length q = dimension self /\ _q_in_limits self q = true /\
       forall i lo up, q_limits_lower self !! i = Some lo ->
         q_limits_upper self !! i = Some up -> q !! i = Some (uniform i lo up)).
Proof.
  intros Hlo Hup Hdraw Hord. unfold random_state_from.
  destruct (Rltb (epsilon self) coin) eqn:Hcoin.
  - apply Rltb_true in Hcoin.
    destruct (fill_uniform_spec 0 (zip (q_limits_lower self) (q_limits_upper self))
                (replicate (dimension self) 0)) as (q & Hq & Hlen & Hlook).
    { rewrite length_zip, length_replicate. lia. }
    rewrite length_replicate in Hlen.
    exists q. split; [done|]. split; [lra|]. intros _.
    assert (Hcoord : forall i lo up, q_limits_lower self !! i = Some lo ->
              q_limits_upper self !! i = Some up -> q !! i = Some (uniform i lo up)).
    { intros i lo up Hl Hu. rewrite Hlook.
      pose proof (lookup_lt_Some _ _ _ Hl).
      rewrite decide_True by (rewrite length_zip; lia).
      replace (i - 0)%nat with i by lia.
      assert (zip (q_limits_lower self) (q_limits_upper self) !! i = Some (lo, up)) as ->
        by (by apply lookup_zip_Some).
      done. }
    split; [done|]. split; [|done].
    unfold _q_in_limits. apply andb_true_iff. split; apply forallb_zip_Rleb.
    + intros i lo x Hl Hx.
      destruct (lookup_lt_is_Some_2 (q_limits_upper self) i) as [up Hu].
      { apply lookup_lt_Some in Hl. lia. }
      rewrite (Hcoord _ _ _ Hl Hu) in Hx. injection Hx as <-.
      apply Hdraw. by eapply Hord.
    + intros i x up Hx Hu.
      destruct (lookup_lt_is_Some_2 (q_limits_lower self) i) as [lo Hl].
      { apply lookup_lt_Some in Hu. lia. }
      rewrite (Hcoord _ _ _ Hl Hu) in Hx. injection Hx as <-.
      apply Hdraw. by eapply Hord.
  - apply Rltb_false in Hcoin. exists (goal_q self). split; [done|]. split; [done|lra].
Qed.

(** X15.  When both limit vectors are longer than the dimension and the
    coin is above [epsilon], [random_state] raises: the loop writes past
    the end of [q_outs]. *)
Theorem random_state_overflow (coin : R) :
  (dimension self < length (q_limits_lower self))%nat ->
  (dimension self < length (q_limits_upper self))%nat ->
  epsilon self < coin ->
  random_state_from self uniform coin = None.
Proof.
  intros Hlo Hup Hcoin. unfold random_state_from.
  rewrite (proj2 (Rltb_true _ _) Hcoin).
  apply fill_uniform_overflow; rewrite ?length_zip, length_replicate; lia.
Qed.

End SamplingProperties.

Section SetupOutcome.
Local Open Scope R_scope.

Variable robot_joint_limits : option string -> Config * Config.

Lemma forallb_nonzero_false (xs : list R) :
  forallb (fun x => negb (Reqb x 0)) xs = false <-> In 0 xs.
Proof.
  induction xs as [|x xs IH]; simpl; [split; done|].
  rewrite andb_false_iff, IH, negb_false_iff, Reqb_true.
  split; (intros [H|H]; [left|right]; done).
Qed.

(** X16.  For a supplied start, [setup_start_goal_joint] returns normally
    exactly when the goal is an array, some joint value of the start is 0
    and the initial collision check raises nothing; the planner then holds
    the start and the goal as arrays, the arm, the length of the start as
    dimension and the robot's limits for that arm. *)
Theorem setup_succeeds_iff init_report (obj obj' : PlannerObj) (start goal : pyval)
    (arm : option string) (xs : Config) :
  supplied start xs ->
  setup_start_goal_joint robot_joint_limits init_report obj start goal arm = (obj', None)
  <->
  exists gs, goal = NdArray gs /\ In 0 xs /\
    _check_init_collision init_report = None /\
    obj' = set_q_limits (robot_joint_limits arm)
             (set_dimension (length xs)
                (set_arm arm (set_cur_goal (NdArray xs) (NdArray gs) obj))).
Proof.
  intros Hs.
  assert (Hcq : (if isinstance_ndarray start then start else np_array start) = NdArray xs)
    by (destruct Hs as [-> | ->]; done).
  unfold setup_start_goal_joint. split.
  - intros H. destruct goal as [|gs|gs|]; simpl in H.
    + done.
    + unfold _check_q_data in H. simpl in H. by destruct (forallb _ gs).
    + rewrite Hcq, check_q_data_arrays in H.
      destruct (forallb _ xs) eqn:Hall; [done|]. simpl in H.
      unfold _setup_collision_and_q_limit in H.
      destruct (_check_init_collision init_report) eqn:Hcol; [done|].
      injection H as <-. exists gs. split; [done|].
      split; [by apply forallb_nonzero_false|]. done.
    + rewrite Hcq in H. unfold _check_q_data in H. simpl in H.
      by destruct (forallb _ xs).
  - intros (gs & -> & Hzero & Hcol & ->). simpl. rewrite Hcq, check_q_data_arrays.
    apply forallb_nonzero_false in Hzero. rewrite Hzero. simpl.
    unfold _setup_collision_and_q_limit. rewrite Hcol. done.
Qed.

End SetupOutcome.

(** ** The further properties on the example run *)

Open Scope R_scope.

Lemma demo_loop3 :
  loop demo_planner demo_collision_free demo_samples 3 =
  Some (demo_state3, Some demo_path).
Proof.
  eapply loop_step; [|by apply demo_step2].
  eapply loop_step; [|by apply demo_step1].
  by apply demo_loop1.
Qed.

Lemma demo_minimum3 :
  get_minimum_cost demo_collision_free demo_state3 [0; 1; 2]%nat [3; 4] 9 2 =
  Some (5, 0%nat).
Proof.
  destruct (distance_pair_eq 0 0 3 4 5) as [D1 D2]; [lra|lra|].
  destruct (distance_pair_bounds 0 5 3 4 3 4) as [D3 D4]; [lra|lra|lra|].
  destruct (distance_pair_eq 3 5 3 4 1) as [D5 D6]; [lra|lra|].
  unfold get_minimum_cost, get_new_cost. simpl.
  repeat (progress (map_lookup; simpl; rcmp; simpl)).
  repeat f_equal; lra.
Qed.

Lemma demo_rewire3 :
  rewire demo_collision_free (insert_vertex demo_state3 [3; 4] 5 0).1
    [0; 1; 2]%nat [3; 4] (insert_vertex demo_state3 [3; 4] 5 0).2 =
  Some demo_state4.
Proof.
  destruct (distance_pair_eq 0 0 3 4 5) as [D1 D2]; [lra|lra|].
  destruct (distance_pair_bounds 0 5 3 4 3 4) as [D3 D4]; [lra|lra|lra|].
  destruct (distance_pair_eq 3 5 3 4 1) as [D5 D6]; [lra|lra|].
  eval_step.
Qed.

Lemma demo_inserted3_inv :
  planner_inv (insert_vertex demo_state3 [3; 4] 5 0).1.
Proof.
  destruct (distance_pair_eq 0 0 3 4 5) as [D1 D2]; [lra|lra|].
  eapply (insert_vertex_inv demo_state3 [3; 4] 5 0 [0; 0] 0%nat).
  - eapply loop_inv. apply demo_loop3.
  - unfold demo_state3. simpl. by map_lookup.
  - done.
  - lra.
Qed.

Lemma demo_sample_dimension k :
  length (demo_samples k) = length (cur_q demo_planner).
Proof. by destruct k as [|[|[|k]]]. Qed.

Lemma get_minimum_cost_minimal_witness :
  5 <= 9 /\
  ((5 = 9 /\ 0%nat = 2%nat) \/
   exists cp qp, In 0%nat [0; 1; 2]%nat /\ cost demo_state3 !! 0%nat = Some cp /\
     vertices (T demo_state3) !! 0%nat = Some qp /\
     5 = cp + distance [3; 4] qp /\ 5 < 9) /\
  (demo_collision_free [3; 4] = true ->
   forall i, In i [0; 1; 2]%nat ->
     exists ci vi, cost demo_state3 !! i = Some ci /\
       vertices (T demo_state3) !! i = Some vi /\
       5 <= ci + distance [3; 4] vi) /\
  (demo_collision_free [3; 4] = false -> 5 = 9 /\ 0%nat = 2%nat).
Proof.
  apply (get_minimum_cost_minimal demo_collision_free demo_state3
           [0; 1; 2]%nat [3; 4] 9 2 5 0).
  apply demo_minimum3.
Defined.

Lemma rewire_leaves_no_improvement_witness :
  cost demo_state4 !! (insert_vertex demo_state3 [3; 4] 5 0).2 =
    cost (insert_vertex demo_state3 [3; 4] 5 0).1
      !! (insert_vertex demo_state3 [3; 4] 5 0).2 /\
  forall i v, In i [0; 1; 2]%nat ->
    vertices (T (insert_vertex demo_state3 [3; 4] 5 0).1) !! i = Some v ->
    demo_collision_free v = true ->
    exists ci cn, cost demo_state4 !! i = Some ci /\
      cost demo_state4 !! (insert_vertex demo_state3 [3; 4] 5 0).2 = Some cn /\
      ci <= cn + distance [3; 4] v.
Proof.
  apply (rewire_leaves_no_improvement demo_collision_free
           (insert_vertex demo_state3 [3; 4] 5 0).1 [0; 1; 2]%nat [3; 4]
           (insert_vertex demo_state3 [3; 4] 5 0).2 demo_state4).
  apply demo_rewire3.
Defined.

Lemma rewire_frame_witness :
  vertices (T demo_state4) = vertices (T (insert_vertex demo_state3 [3; 4] 5 0).1) /\
  length (edges (T demo_state4)) =
    length (edges (T (insert_vertex demo_state3 [3; 4] 5 0).1)) /\
  (forall v, ~ In v [0; 1; 2]%nat ->
     cost demo_state4 !! v = cost (insert_vertex demo_state3 [3; 4] 5 0).1 !! v /\
     parent (T demo_state4) v = parent (T (insert_vertex demo_state3 [3; 4] 5 0).1) v) /\
  (forall v,
     parent (T demo_state4) v = parent (T (insert_vertex demo_state3 [3; 4] 5 0).1) v \/
     parent (T demo_state4) v = Some (insert_vertex demo_state3 [3; 4] 5 0).2).
Proof.
  apply (rewire_frame demo_collision_free
           (insert_vertex demo_state3 [3; 4] 5 0).1 [0; 1; 2]%nat [3; 4]
           (insert_vertex demo_state3 [3; 4] 5 0).2 demo_state4).
  - apply demo_inserted3_inv.
  - reflexivity.
  - apply demo_rewire3.
Defined.

Lemma inserted_vertices_checked_witness :
  demo_collision_free [3; 4] = true /\ _q_in_limits demo_planner [3; 4] = true.
Proof.
  apply (inserted_vertices_checked demo_planner demo_collision_free demo_samples
           4 demo_state4 (Some demo_path) demo_loop4 4 [3; 4]).
  - lia.
  - reflexivity.
Defined.

Lemma tree_only_grows_witness :
  (exists added, vertices (T demo_state4) = vertices (T demo_state1) ++ added /\
     (length added <= 4 - 1)%nat) /\
  (length (edges (T demo_state1)) <= length (edges (T demo_state4)))%nat /\
  (is_Some (Some demo_path) -> is_Some (Some demo_path)).
Proof.
  apply (tree_only_grows demo_planner demo_collision_free demo_samples
           1 4 demo_state1 (Some demo_path) demo_state4 (Some demo_path)).
  - lia.
  - by apply demo_loop1.
  - apply demo_loop4.
Defined.

Lemma returned_path_ends_at_goal_witness :
  exists mid q,
    demo_path = cur_q demo_planner :: mid ++ [q; goal_q demo_planner] /\
    distance q (goal_q demo_planner) <= 2 / 10 /\
    In q (vertices (T demo_state4)) /\
    (3 <= length demo_path)%nat.
Proof.
  apply (returned_path_ends_at_goal demo_planner demo_collision_free demo_samples
           demo_state4 demo_path).
  apply demo_loop4.
Defined.

Lemma get_rrt_tree_pairs_witness :
  exists pairs,
    get_rrt_tree (T demo_state4) = Some pairs /\
    (length pairs + 1 = length (vertices (T demo_state4)))%nat /\
    forall k from_node goal_node,
      pairs !! k = Some (from_node, goal_node) ->
      vertices (T demo_state4) !! S k = Some goal_node /\
      exists p, parent (T demo_state4) (S k) = Some p /\
        vertices (T demo_state4) !! p = Some from_node.
Proof.
  apply (get_rrt_tree_pairs demo_planner demo_collision_free demo_samples demo_state4).
  eapply visited_loop. apply demo_loop4.
Defined.

Lemma step_bound_witness :
  (forall i q, vertices (T demo_state4) !! i = Some q ->
     length q = length (cur_q demo_planner)) /\
  forall v p qv qp,
    parent (T demo_state4) v = Some p ->
    vertices (T demo_state4) !! v = Some qv -> vertices (T demo_state4) !! p = Some qp ->
    distance qp qv <= delta_dis demo_planner.
Proof.
  apply (step_bound demo_planner demo_collision_free demo_samples
           demo_sample_dimension 4 demo_state4 (Some demo_path)).
  - simpl. lra.
  - apply demo_loop4.
Defined.

Lemma cost_at_least_distance_witness :
  distance (cur_q demo_planner) [8; 5] <= 13.
Proof.
  apply (cost_at_least_distance demo_planner demo_collision_free demo_samples
           demo_sample_dimension 4 demo_state4 (Some demo_path) 3 [8; 5] 13).
  - apply demo_loop4.
  - reflexivity.
  - unfold demo_state4. simpl. by map_lookup.
Defined.

Lemma new_state_returns_close_sample_witness :
  new_state demo_planner [0; 0] [0; 5] = [0; 5] /\
  ([0; 5] = goal_q demo_planner ->
   reach_to_goal demo_planner (new_state demo_planner [0; 0] [0; 5]) = true).
Proof.
  apply (new_state_returns_close_sample demo_planner [0; 0] [0; 5]).
  - reflexivity.
  - simpl. lra.
  - destruct (distance_pair_eq 0 0 0 5 5) as [D _]; [lra|lra|].
    rewrite D. simpl. lra.
Defined.

Lemma random_state_within_limits_witness :
  exists q, random_state_from demo_planner mid_uniform (1 / 2) = Some q /\
    (1 / 2 <= epsilon demo_planner -> q = goal_q demo_planner) /\
    (epsilon demo_planner < 1 / 2 ->
       length q = dimension demo_planner /\ _q_in_limits demo_planner q = true /\
       forall i lo up, q_limits_lower demo_planner !! i = Some lo ->
         q_limits_upper demo_planner !! i = Some up ->
         q !! i = Some (mid_uniform i lo up)).
Proof.
  apply (random_state_within_limits demo_planner mid_uniform (1 / 2)).
  - reflexivity.
  - reflexivity.
  - intros i lo up Hle. unfold mid_uniform. lra.
  - intros [|[|i]] lo up Hlo Hup; simpl in *; try done;
      injection Hlo as <-; injection Hup as <-; lra.
Defined.

Lemma random_state_overflow_witness :
  random_state_from short_planner mid_uniform (1 / 2) = None.
Proof.
  apply (random_state_overflow short_planner mid_uniform (1 / 2)).
  - simpl. lia.
  - simpl. lia.
  - simpl. lra.
Defined.

Lemma setup_succeeds_iff_witness :
  setup_start_goal_joint demo_limits (false, []) fresh_obj
    (PyList [0; 0]) (NdArray [0; 5]) None = (ready_obj, None)
  <->
  exists gs, NdArray [0; 5] = NdArray gs /\ In 0 [0; 0] /\
    _check_init_collision (false, []) = None /\
    ready_obj = set_q_limits (demo_limits None)
                  (set_dimension (length [0; 0])
                     (set_arm None (set_cur_goal (NdArray [0; 0]) (NdArray gs) fresh_obj))).
Proof.
  apply (setup_succeeds_iff demo_limits (false, []) fresh_obj ready_obj
           (PyList [0; 0]) (NdArray [0; 5]) None [0; 0]).
  left. reflexivity.
Defined.

Close Scope R_scope.

Section StructureProperties.
Local Open Scope R_scope.

Variable self : Planner.
Variable collision_free : Config -> bool.
Variable random_state : nat -> Config.

(** X17.  For a configuration and limit vectors of one length,
    [_q_in_limits] holds exactly when every coordinate lies between its
    lower and its upper limit, both included. *)
Theorem q_in_limits_iff (q_in : Config) :
  length (q_limits_lower self) = length q_in ->
  length (q_limits_upper self) = length q_in ->
  _q_in_limits self q_in = true <->
  forall i lo x up,
    q_limits_lower self !! i = Some lo -> q_in !! i = Some x ->
    q_limits_upper self !! i = Some up -> lo <= x <= up.
Proof.
  intros Hlo Hup. unfold _q_in_limits.
  rewrite andb_true_iff, !forallb_zip_Rleb. split.
  - intros [H1 H2] i lo x up Hl Hx Hu. split; [by eapply H1|by eapply H2].
  - intros H. split.
    + intros i lo x Hl Hx.
      destruct (lookup_lt_is_Some_2 (q_limits_upper self) i) as [up Hu].
      { apply lookup_lt_Some in Hx. lia. }
      by destruct (H i lo x up Hl Hx Hu).
    + intros i x up Hx Hu.
      destruct (lookup_lt_is_Some_2 (q_limits_lower self) i) as [lo Hl].
      { apply lookup_lt_Some in Hx. lia. }
      by destruct (H i lo x up Hl Hx Hu).
Qed.

(** X18.  At every point of [generate_path] the cost map is defined on
    the indices of the vertices and nowhere else, the start costs 0 and no
    cost is negative. *)
Theorem cost_map_domain s :
  visited self collision_free random_state s ->
  (forall v, is_Some (cost s !! v) <-> (v < length (vertices (T s)))%nat) /\
  cost s !! 0%nat = Some 0 /\
  forall v c, cost s !! v = Some c -> 0 <= c.
Proof.
  intros Hvis. pose proof (visited_inv _ _ _ _ Hvis) as Hinv.
  pose proof (visited_root _ _ _ _ Hvis) as H0.
  split; [apply (inv_dom s Hinv)|]. split; [done|].
  intros v c Hc.
  destruct (inv_reach s Hinv v) as [l Hl]; [apply (inv_dom s Hinv); eauto|].
  by eapply root_cost_le.
Qed.

(** X19.  At every point of [generate_path] the edge at position [k] is
    the edge of vertex [k+1]; its parent is an existing vertex other than
    vertex [k+1] itself. *)
Theorem edge_positions s k e :
  visited self collision_free random_state s ->
  edges (T s) !! k = Some e ->
  e.2 = S k /\ (e.1 < length (vertices (T s)))%nat /\ e.1 <> e.2 /\
  parent (T s) (S k) = Some e.1.
Proof.
  intros Hvis He. pose proof (visited_inv _ _ _ _ Hvis) as Hinv.
  destruct (inv_edges s Hinv _ _ He) as [He2 He1].
  assert (Hp : parent (T s) (S k) = Some e.1).
  { rewrite parent_lookup by (intros j e' He'; by apply (inv_edges s Hinv)).
    rewrite decide_False by lia. simpl. replace (k - 0)%nat with k by lia.
    by rewrite He. }
  split; [done|]. split; [done|]. split; [|done].
  intros Heq. rewrite He2 in Heq.
  destruct (inv_reach s Hinv (S k)) as [l Hl].
  { pose proof (lookup_lt_Some _ _ _ He). pose proof (inv_len s Hinv). lia. }
  inversion Hl as [|v p l' Hv Hp' Hl']; subst.
  rewrite Hp, Heq in Hp'. injection Hp' as <-.
  pose proof (root_chain_functional _ _ _ _ Hl Hl') as Hll.
  apply (f_equal length) in Hll. simpl in Hll. lia.
Qed.

(** X20.  On every tree [generate_path] builds that has an edge the loop
    of [find_path] ends within [|vertices|] passes and raises nothing:
    more passes change nothing.  On a tree without edges [find_path]
    raises. *)
Theorem find_path_terminates s fuel :
  visited self collision_free random_state s ->
  (length (vertices (T s)) <= fuel)%nat ->
  if decide (edges (T s) = [])
  then find_path_fuel self fuel (T s) = None
  else is_Some (find_path self (T s)) /\
       find_path_fuel self fuel (T s) = find_path self (T s).
Proof.
  intros Hvis Hfuel. pose proof (visited_inv _ _ _ _ Hvis) as Hinv.
  case_decide as Hnil.
  - unfold find_path_fuel. rewrite Hnil. done.
  - assert (1 <= length (edges (T s)))%nat
      by (destruct (edges (T s)); simpl; [done|lia]).
    destruct (find_path_spec self s Hinv) as (l & qs & Hl & Hqs & Hfp); [done|].
    destruct (find_path_fuel_spec self s fuel Hinv) as (l' & qs' & Hl' & Hqs' & Hfp');
      [done|done|].
    split; [by rewrite Hfp|]. rewrite Hfp, Hfp'.
    pose proof (root_chain_functional _ _ _ _ Hl Hl') as <-.
    assert (qs = qs') as <-; [|done].
    clear -Hqs Hqs'. revert qs' Hqs'. induction Hqs as [|x q l qs Hx _ IH]; intros qs' Hqs'.
    + by inversion Hqs'.
    + inversion Hqs' as [|x' q' l' qs'' Hx' Hrest]; subst.
      rewrite Hx in Hx'. injection Hx' as <-. f_equal. by apply IH.
Qed.

End StructureProperties.

Section StructureExamples.
Local Open Scope R_scope.

Lemma q_in_limits_iff_witness :
  _q_in_limits demo_planner [3; 4] = true <->
  forall i lo x up,
    q_limits_lower demo_planner !! i = Some lo -> [3; 4] !! i = Some x ->
    q_limits_upper demo_planner !! i = Some up -> lo <= x <= up.
Proof.
  apply (q_in_limits_iff demo_planner [3; 4]); reflexivity.
Defined.

Lemma cost_map_domain_witness :
  (forall v, is_Some (cost demo_state4 !! v) <->
     (v < length (vertices (T demo_state4)))%nat) /\
  cost demo_state4 !! 0%nat = Some 0 /\
  forall v c, cost demo_state4 !! v = Some c -> 0 <= c.
Proof.
  apply (cost_map_domain demo_planner demo_collision_free demo_samples demo_state4).
  eapply visited_loop. apply demo_loop4.
Defined.

Lemma edge_positions_witness :
  (4, 2)%nat.2 = 2%nat /\ ((4, 2)%nat.1 < length (vertices (T demo_state4)))%nat /\
  (4, 2)%nat.1 <> (4, 2)%nat.2 /\
  parent (T demo_state4) 2 = Some (4, 2)%nat.1.
Proof.
  apply (edge_positions demo_planner demo_collision_free demo_samples
           demo_state4 1 (4, 2)%nat).
  - eapply visited_loop. apply demo_loop4.
  - reflexivity.
Defined.

Lemma find_path_terminates_witness :
  if decide (edges (T demo_state4) = [])
  then find_path_fuel demo_planner 100 (T demo_state4) = None
  else is_Some (find_path demo_planner (T demo_state4)) /\
       find_path_fuel demo_planner 100 (T demo_state4) =
         find_path demo_planner (T demo_state4).
Proof.
  apply (find_path_terminates demo_planner demo_collision_free demo_samples
           demo_state4 100).
  - eapply visited_loop. apply demo_loop4.
  - simpl. lia.
Defined.

End StructureExamples.
